(** * Portfolio beta weighting

    A shallow embedding of [Portfolio_Beta_Weighting.py] and the properties
    of its four functions: [get_historical_data], [calculate_returns],
    [calculate_beta] and [portfolio_beta_weighting].

    Numbers.  The program computes on NumPy [float64] values.  Three views
    of that arithmetic are used, each for what it can establish.

    - [npfloat] is the view the program is embedded in: a finite value is
      an exact real, and the three non-finite values [inf], [-inf] and
      [nan] are kept, with the IEEE 754 rules NumPy applies to them: a
      division by zero or the logarithm of zero gives an infinity or [nan]
      and a warning, never an exception.  It has one zero, read as [+0.0],
      and it neither rounds nor overflows: it settles what is raised, the
      shape of the results and the formulas the code applies.
    - The binary64 numbers themselves ([PrimFloat.float]), on which the
      numeric lines of the program are written a second time
      ([rebalance64], [calculate_beta64]): these run bit for bit on given
      inputs, and show where rounding, overflow and underflow change an
      answer.
    - Real arithmetic with a rounding after every operation ([rounding],
      [summed], [new_weights_fl], ...): every statement proved there holds
      for binary64, whose round-to-nearest has a relative error of at most
      [2^-53] on results inside the normal range.

    Libraries.  [yfinance] is the network: its [download] is a parameter of
    the development.  The pandas, NumPy and SciPy operations the program
    calls are modelled from their behaviour.  The repository pins no SciPy
    release, and [scipy.stats.linregress] changed between releases:
    [linregress] is the function of SciPy 1.13 and earlier, and
    [linregress_on] gives it for that generation and for SciPy 1.17. *)

From Stdlib Require Import PrimFloat.
From Stdlib Require Import String Reals ROrderedType Lra Lia ZArith Bool List.
From Stdlib Require Import Permutation.
Import ListNotations.

Local Open Scope R_scope.

(** ** NumPy floating-point values *)

Inductive npfloat : Type :=
| Fin (x : R)
| PInf
| NInf
| NaN.

Definition np_isnan (a : npfloat) : bool :=
  match a with NaN => true | _ => false end.

Definition np_isfinite (a : npfloat) : bool :=
  match a with Fin _ => true | _ => false end.

(** The infinity of a given sign; a zero sign gives [nan]
    ([0 * inf], [0 / 0]). *)
Definition inf_of_sign (c : comparison) : npfloat :=
  match c with Gt => PInf | Lt => NInf | Eq => NaN end.

Definition sign_mul (c d : comparison) : comparison :=
  match c, d with
  | Eq, _ | _, Eq => Eq
  | Lt, Lt | Gt, Gt => Gt
  | Lt, Gt | Gt, Lt => Lt
  end.

(** Sign of a value that is not [nan]. *)
Definition np_sign (a : npfloat) : comparison :=
  match a with
  | Fin x => Rcompare x 0
  | PInf => Gt
  | NInf => Lt
  | NaN => Eq
  end.

Definition np_neg (a : npfloat) : npfloat :=
  match a with
  | Fin x => Fin (- x)
  | PInf => NInf
  | NInf => PInf
  | NaN => NaN
  end.

Definition np_add (a b : npfloat) : npfloat :=
  match a, b with
  | NaN, _ | _, NaN => NaN
  | Fin x, Fin y => Fin (x + y)
  | PInf, NInf | NInf, PInf => NaN
  | PInf, _ | _, PInf => PInf
  | NInf, _ | _, NInf => NInf
  end.

Definition np_sub (a b : npfloat) : npfloat := np_add a (np_neg b).

Definition np_mul (a b : npfloat) : npfloat :=
  match a, b with
  | NaN, _ | _, NaN => NaN
  | Fin x, Fin y => Fin (x * y)
  | _, _ => inf_of_sign (sign_mul (np_sign a) (np_sign b))
  end.

(** Sign of a divisor: the zero of the model is [+0.0]. *)
Definition divisor_sign (y : R) : comparison :=
  match Rcompare y 0 with Lt => Lt | _ => Gt end.

Definition np_div (a b : npfloat) : npfloat :=
  match a, b with
  | NaN, _ | _, NaN => NaN
  | Fin x, Fin y =>
      match Rcompare y 0 with
      | Eq => inf_of_sign (Rcompare x 0)
      | _ => Fin (x / y)
      end
  | Fin _, _ => Fin 0
  | _, Fin y => inf_of_sign (sign_mul (np_sign a) (divisor_sign y))
  | _, _ => NaN
  end.

(** [np.log] *)
Definition np_log (a : npfloat) : npfloat :=
  match a with
  | Fin x =>
      match Rcompare x 0 with
      | Gt => Fin (ln x)
      | Eq => NInf
      | Lt => NaN
      end
  | PInf => PInf
  | NInf | NaN => NaN
  end.

(** [np.sqrt] *)
Definition np_sqrt (a : npfloat) : npfloat :=
  match a with
  | Fin x =>
      match Rcompare x 0 with
      | Lt => NaN
      | _ => Fin (sqrt x)
      end
  | PInf => PInf
  | NInf | NaN => NaN
  end.

(** [a == b], [a < b], [a > b]: every comparison with [nan] is false. *)
Definition np_eqb (a b : npfloat) : bool :=
  match a, b with
  | Fin x, Fin y => match Rcompare x y with Eq => true | _ => false end
  | PInf, PInf | NInf, NInf => true
  | _, _ => false
  end.

Definition np_ltb (a b : npfloat) : bool :=
  match a, b with
  | NaN, _ | _, NaN => false
  | Fin x, Fin y => match Rcompare x y with Lt => true | _ => false end
  | NInf, NInf | PInf, _ | _, NInf => false
  | NInf, _ | _, PInf => true
  end.

Definition np_gtb (a b : npfloat) : bool := np_ltb b a.

(** Nearest integer, ties to the even one. *)
Definition round_half_even (x : R) : Z :=
  let f := Zfloor x in
  match Rcompare (x - IZR f) (1 / 2) with
  | Lt => f
  | Gt => (f + 1)%Z
  | Eq => if Z.even f then f else (f + 1)%Z
  end.

(** [np.round(a, 0)], which is [np.rint]. *)
Definition np_rint (a : npfloat) : npfloat :=
  match a with
  | Fin x => Fin (IZR (round_half_even x))
  | _ => a
  end.

(** [np.maximum] and [np.minimum] propagate [nan]. *)
Definition np_maximum (a b : npfloat) : npfloat :=
  match a, b with
  | NaN, _ | _, NaN => NaN
  | _, _ => if np_ltb a b then b else a
  end.

Definition np_minimum (a b : npfloat) : npfloat :=
  match a, b with
  | NaN, _ | _, NaN => NaN
  | _, _ => if np_ltb b a then b else a
  end.

(** [np.amax(x)] and [np.amin(x)] of a one-dimensional array; the program
    reaches them on non-empty arrays only. *)
Definition np_amax (l : list npfloat) : npfloat :=
  match l with
  | [] => NaN
  | h :: t => fold_left np_maximum t h
  end.

Definition np_amin (l : list npfloat) : npfloat :=
  match l with
  | [] => NaN
  | h :: t => fold_left np_minimum t h
  end.

(** [a.sum()] *)
Definition np_sum (l : list npfloat) : npfloat :=
  fold_left np_add l (Fin 0).

(** [np.mean(a)] *)
Definition np_mean (l : list npfloat) : npfloat :=
  np_div (np_sum l) (Fin (INR (length l))).

(** Element-wise operation on two arrays of one shape. *)
Fixpoint map2 {A B C : Type} (f : A -> B -> C) (l : list A) (m : list B) : list C :=
  match l, m with
  | a :: l', b :: m' => f a b :: map2 f l' m'
  | _, _ => []
  end.

(** ** Python: exceptions and dictionaries *)

Inductive exn : Type :=
| ValueError (msg : string)
| KeyError (key : string)
| IndexError (msg : string).

(** A call returns a value ([inr]) or raises ([inl]). *)
Definition result (A : Type) : Type := (exn + A)%type.

Definition ret {A : Type} (a : A) : result A := inr a.
Definition raise {A : Type} (e : exn) : result A := inl e.

Definition bind {A B : Type} (c : result A) (k : A -> result B) : result B :=
  match c with
  | inl e => inl e
  | inr a => k a
  end.

Notation "x <- c ;; k" := (bind c (fun x => k))
  (at level 61, c at next level, right associativity).

(** A list comprehension whose element expression can raise. *)
Fixpoint mapM {A B : Type} (f : A -> result B) (l : list A) : result (list B) :=
  match l with
  | [] => ret []
  | a :: l' => b <- f a ;; bs <- mapM f l' ;; ret (b :: bs)
  end.

(** A [dict] with string keys, in insertion order. *)
Definition dict (V : Type) : Type := list (string * V).

Definition dict_keys {V : Type} (d : dict V) : list string := map fst d.
Definition dict_values {V : Type} (d : dict V) : list V := map snd d.

(** [d[k] = v]: an existing key keeps its place. *)
Fixpoint dict_set {V : Type} (k : string) (v : V) (d : dict V) : dict V :=
  match d with
  | [] => [(k, v)]
  | (k', v') :: d' =>
      if String.eqb k k' then (k, v) :: d' else (k', v') :: dict_set k v d'
  end.

(** [d[k]] *)
Fixpoint dict_get {V : Type} (k : string) (d : dict V) : result V :=
  match d with
  | [] => raise (KeyError k)
  | (k', v) :: d' => if String.eqb k k' then ret v else dict_get k d'
  end.

(** [k in l] *)
Definition mem (k : string) (l : list string) : bool :=
  existsb (String.eqb k) l.

(** ** pandas: frames and series *)

(** A frame of floats: its column labels and its rows in index order, a row
    giving the value under each label. *)
Record DataFrame : Type := mkDataFrame {
  columns : list string;
  rows : list (string -> npfloat)
}.

(** A row of a frame taken as a [Series]: its index is the frame's columns. *)
Record Series : Type := mkSeries {
  index : list string;
  at_label : string -> npfloat
}.

(** What [yf.download] returns: a frame with two-level columns, a price
    field ("Adj Close", "Close", "Volume", ...) and under it one column per
    ticker.  [f in data.columns] tests the first level. *)
Definition Payload : Type := dict DataFrame.

Definition has_field (f : string) (data : Payload) : bool :=
  mem f (dict_keys data).

(** [df.dropna()]: the rows that hold no [nan]. *)
Definition row_notna (cols : list string) (r : string -> npfloat) : bool :=
  forallb (fun c => negb (np_isnan (r c))) cols.

Definition dropna (df : DataFrame) : DataFrame :=
  mkDataFrame (columns df) (filter (row_notna (columns df)) (rows df)).

(** [df.shift(1)]: every row moves down by one; the first is [nan]. *)
Definition shift1 (df : DataFrame) : DataFrame :=
  mkDataFrame (columns df)
    match rows df with
    | [] => []
    | _ :: _ => (fun _ => NaN) :: removelast (rows df)
    end.

(** [a / b] for two frames with the same labels. *)
Definition df_div (a b : DataFrame) : DataFrame :=
  mkDataFrame (columns a)
    (map2 (fun r s => fun c => np_div (r c) (s c)) (rows a) (rows b)).

(** [np.log(df)] *)
Definition df_log (df : DataFrame) : DataFrame :=
  mkDataFrame (columns df) (map (fun r => fun c => np_log (r c)) (rows df)).

(** [df.iloc[-1]] *)
Definition iloc_last (df : DataFrame) : result Series :=
  match rows df with
  | [] => raise (IndexError "single positional indexer is out-of-bounds")
  | r :: t => ret (mkSeries (columns df) (last t r))
  end.

(** [s[k]] *)
Definition series_get (s : Series) (k : string) : result npfloat :=
  if mem k (index s) then ret (at_label s k) else raise (KeyError k).

(** [df[k]]: one column, as the array of its values. *)
Definition df_col (df : DataFrame) (k : string) : result (list npfloat) :=
  if mem k (columns df) then ret (map (fun r => r k) (rows df))
  else raise (KeyError k).

(** ** NumPy and SciPy: covariance and regression *)

(** [np.dot(a, b)] of two one-dimensional arrays. *)
Definition np_dot (a b : list npfloat) : result npfloat :=
  if Nat.eqb (length a) (length b) then ret (np_sum (map2 np_mul a b))
  else raise (ValueError "shapes not aligned").

(** The four entries of [np.cov(x, y, bias=1)]: both arrays are centred on
    their means, and the products of the centred arrays are scaled by
    [1 / n]. *)
Definition np_cov_bias (x y : list npfloat)
  : npfloat * npfloat * npfloat * npfloat :=
  let dx := map (fun a => np_sub a (np_mean x)) x in
  let dy := map (fun a => np_sub a (np_mean y)) y in
  let f := np_div (Fin 1) (Fin (INR (length x))) in
  let c (u v : list npfloat) := np_mul (np_sum (map2 np_mul u v)) f in
  (c dx dx, c dx dy, c dy dx, c dy dy).

(** The two fields of a [LinregressResult] that [calculate_beta] reads. *)
Record LinregressResult : Type := mkLinregress {
  slope : npfloat;
  rvalue : npfloat
}.

Definition empty_msg : string := "Inputs must not be empty.".

Definition identical_msg : string :=
  "Cannot calculate a linear regression if all x values are identical".

(** The beginning of NumPy's message, which goes on to name the two
    sizes. *)
Definition mismatch_msg : string :=
  "all the input array dimensions except for the concatenation axis must match exactly".

(** [scipy.stats.linregress(x, y)].  The intercept, the p-value and the
    standard errors are computed after the slope and the correlation; no
    exception is raised while computing them. *)
Definition linregress (x y : list npfloat) : result LinregressResult :=
  if orb (Nat.eqb (length x) 0) (Nat.eqb (length y) 0) then
    raise (ValueError empty_msg)
  else if andb (np_eqb (np_amax x) (np_amin x)) (Nat.ltb 1 (length x)) then
    raise (ValueError identical_msg)
  else if negb (Nat.eqb (length x) (length y)) then
    raise (ValueError mismatch_msg)
  else
    let '(ssxm, ssxym, _, ssym) := np_cov_bias x y in
    let r :=
      if orb (np_eqb ssxm (Fin 0)) (np_eqb ssym (Fin 0)) then Fin 0
      else
        let r := np_div ssxym (np_sqrt (np_mul ssxm ssym)) in
        if np_gtb r (Fin 1) then Fin 1
        else if np_ltb r (Fin (-1)) then Fin (-1)
        else r in
    ret (mkLinregress (np_div ssxym ssxm) r).

(** [linregress] above is the function of SciPy 1.13 and earlier.  In
    SciPy 1.17 a decorator runs before it: an input that holds a [nan], or
    a sample of at most one observation, gives a result whose fields are
    all [nan] (with a warning), so that the check for empty input is
    never reached; and where a variance is zero the correlation is [nan]
    when the covariance is zero too. *)
Inductive scipy_release : Type :=
| scipy_1_13
| scipy_1_17.

Definition nan_regression : LinregressResult := mkLinregress NaN NaN.

Definition linregress_1_17 (x y : list npfloat) : result LinregressResult :=
  if orb (existsb np_isnan x) (existsb np_isnan y) then ret nan_regression
  else if orb (Nat.leb (length x) 1) (Nat.leb (length y) 1) then ret nan_regression
  else if np_eqb (np_amax x) (np_amin x) then
    raise (ValueError identical_msg)
  else if negb (Nat.eqb (length x) (length y)) then
    raise (ValueError mismatch_msg)
  else
    let '(ssxm, ssxym, _, ssym) := np_cov_bias x y in
    let r :=
      if orb (np_eqb ssxm (Fin 0)) (np_eqb ssym (Fin 0)) then
        if np_eqb ssxym (Fin 0) then NaN else Fin 0
      else
        let r := np_div ssxym (np_sqrt (np_mul ssxm ssym)) in
        if np_gtb r (Fin 1) then Fin 1
        else if np_ltb r (Fin (-1)) then Fin (-1)
        else r in
    ret (mkLinregress (np_div ssxym ssxm) r).

Definition linregress_on (release : scipy_release) (x y : list npfloat)
  : result LinregressResult :=
  match release with
  | scipy_1_13 => linregress x y
  | scipy_1_17 => linregress_1_17 x y
  end.

(** A loop whose body can raise, threading the value it builds. *)
Fixpoint foldM {A B : Type} (f : B -> A -> result B) (l : list A) (b : B)
  : result B :=
  match l with
  | [] => ret b
  | a :: l' => b' <- f b a ;; foldM f l' b'
  end.

(** The comprehension [{key(x): g(x) for x in l}], and the loop
    [for x in l: d[key(x)] = g(x)] on an empty [d]. *)
Definition build_step {A V : Type} (key : A -> string) (g : A -> result V)
    (acc : dict V) (x : A) : result (dict V) :=
  v <- g x ;; ret (dict_set (key x) v acc).

Definition dict_build {A V : Type} (key : A -> string) (g : A -> result V)
    (l : list A) : result (dict V) :=
  foldM (build_step key g) l [].

(** ** The program *)

Definition neither_msg : string :=
  "Neither 'Adj Close' nor 'Close' columns found in the data".

(** One row per portfolio ticker, column by column. *)
Record RebalanceResult : Type := mkRebalanceResult {
  Ticker : list string;
  Current_Shares : list npfloat;
  Current_Price : list npfloat;
  Beta : list npfloat;
  Current_Weight : list npfloat;
  Adjusted_Weight : list npfloat;
  New_Shares : list npfloat
}.

(** What [portfolio_beta_weighting] has in hand before it computes the
    weights: the current prices, the positions and the betas. *)
Record Inputs : Type := mkInputs {
  current_prices : Series;
  positions : dict npfloat;
  betas : dict npfloat
}.

Section Program.

(** [yf.download(tickers, start=..., end=...)]; the dates are absent in
    the call that fetches the current prices. *)
Variable yf_download : list string -> option (string * string) -> Payload.

Definition get_historical_data (tickers : list string) (start_date end_date : string)
  : result DataFrame :=
  let data := yf_download (tickers ++ ["SPY"%string]) (Some (start_date, end_date)) in
  if has_field "Adj Close" data then
    df <- dict_get "Adj Close" data ;; ret (dropna df)
  else if has_field "Close" data then
    df <- dict_get "Close" data ;; ret (dropna df)
  else raise (ValueError neither_msg).

Definition calculate_returns (data : DataFrame) : result DataFrame :=
  ret (dropna (df_log (df_div data (shift1 data)))).

Definition calculate_beta (asset_returns benchmark_returns : list npfloat)
  : result (npfloat * npfloat) :=
  reg <- linregress benchmark_returns asset_returns ;;
  ret (slope reg, np_mul (rvalue reg) (rvalue reg)).

(** Lines 35 to 41: the current prices are the last row of the price
    field of a download without dates. *)
Definition fetch_current_prices (portfolio : dict npfloat) : result Series :=
  let data := yf_download (dict_keys portfolio) None in
  if has_field "Adj Close" data then
    df <- dict_get "Adj Close" data ;; iloc_last df
  else if has_field "Close" data then
    df <- dict_get "Close" data ;; iloc_last df
  else raise (ValueError neither_msg).

(** Lines 35 to 55. *)
Definition portfolio_inputs (portfolio : dict npfloat) : result Inputs :=
  prices <- fetch_current_prices portfolio ;;
  pos <- dict_build fst
           (fun item => p <- series_get prices (fst item) ;;
                        ret (np_mul (snd item) p))
           portfolio ;;
  data <- get_historical_data (dict_keys portfolio) "2020-01-01" "2023-01-01" ;;
  returns <- calculate_returns data ;;
  spy_returns <- df_col returns "SPY" ;;
  bs <- dict_build (fun ticker => ticker)
          (fun ticker => asset <- df_col returns ticker ;;
                         b <- calculate_beta asset spy_returns ;;
                         ret (fst b))
          (dict_keys portfolio) ;;
  ret (mkInputs prices pos bs).

(** Lines 58 to 81, from the inputs gathered above. *)
Definition rebalance (portfolio : dict npfloat) (total_portfolio_value target_beta : npfloat)
    (inp : Inputs) : result RebalanceResult :=
  let current_weights :=
    map (fun p => np_div p total_portfolio_value) (dict_values (positions inp)) in
  current_beta <- np_dot (dict_values (betas inp)) current_weights ;;
  let beta_adjustment := np_div target_beta current_beta in
  let new_weights := map (fun w => np_mul w beta_adjustment) current_weights in
  let normalized_weights :=
    map (fun w => np_div w (np_sum new_weights)) new_weights in
  price_col <- mapM (series_get (current_prices inp)) (dict_keys portfolio) ;;
  beta_col <- mapM (fun t => dict_get t (betas inp)) (dict_keys portfolio) ;;
  ret (mkRebalanceResult
         (dict_keys portfolio)
         (dict_values portfolio)
         price_col
         beta_col
         current_weights
         normalized_weights
         (map np_rint
            (map2 np_div
               (map (fun w => np_mul w total_portfolio_value) normalized_weights)
               price_col))).

Definition portfolio_beta_weighting (portfolio : dict npfloat)
    (total_portfolio_value target_beta : npfloat) : result RebalanceResult :=
  inp <- portfolio_inputs portfolio ;;
  rebalance portfolio total_portfolio_value target_beta inp.

(** The current portfolio beta of line 59. *)
Definition current_beta_of (total_portfolio_value : npfloat) (inp : Inputs)
  : result npfloat :=
  np_dot (dict_values (betas inp))
    (map (fun p => np_div p total_portfolio_value) (dict_values (positions inp))).

End Program.

(** [calculate_beta] under a given SciPy release; under SciPy 1.13 it is
    [calculate_beta] above. *)
Definition calculate_beta_on (release : scipy_release)
    (asset_returns benchmark_returns : list npfloat) : result (npfloat * npfloat) :=
  reg <- linregress_on release benchmark_returns asset_returns ;;
  ret (slope reg, np_mul (rvalue reg) (rvalue reg)).

(** ** Exact-arithmetic counterparts, used in the statements *)

(** Sum, mean and the population covariance of real sequences. *)
Definition Rsum (l : list R) : R := fold_right Rplus 0 l.

Definition Rmean (l : list R) : R := Rsum l / INR (length l).

Definition deviations (l : list R) : list R :=
  map (fun x => x + - Rmean l) l.

Definition covariance (xs ys : list R) : R :=
  Rsum (map2 Rmult (deviations xs) (deviations ys)) * (1 / INR (length xs)).

Definition variance (xs : list R) : R := covariance xs xs.

(** The correlation coefficient as [linregress] computes it on a benchmark
    of non-zero variance: zero when the asset is constant, and clipped to
    the interval from -1 to 1 otherwise. *)
Definition Rclip (r : R) : R :=
  match Rcompare 1 r with
  | Lt => 1
  | _ => match Rcompare r (-1) with Lt => -1 | _ => r end
  end.

Definition correlation (xs ys : list R) : R :=
  match Rcompare (variance ys) 0 with
  | Eq => 0
  | _ => Rclip (covariance xs ys / sqrt (variance xs * variance ys))
  end.

(** A value is a finite, strictly positive number. *)
Definition positive (a : npfloat) : Prop := exists x, a = Fin x /\ 0 < x.


(** A value is a whole number. *)
Definition integral (a : npfloat) : Prop := exists z : Z, a = Fin (IZR z).

(** A call raised. *)
Definition raised {A : Type} (c : result A) : Prop := exists e, c = raise e.

(** ** Stages of the computation, named for the statements *)

Definition log_ratio (prev cur : string -> npfloat) : string -> npfloat :=
  fun c => np_log (np_div (cur c) (prev c)).

(** The rows [calculate_returns] computes before it drops the incomplete
    ones, past the first: each row against the row before it. *)
Fixpoint consecutive_returns (prev : string -> npfloat)
    (rest : list (string -> npfloat)) : list (string -> npfloat) :=
  match rest with
  | [] => []
  | cur :: rest' => log_ratio prev cur :: consecutive_returns cur rest'
  end.

Definition nan_row : string -> npfloat := fun _ => NaN.

Definition add_key (ks : list string) (k : string) : list string :=
  if mem k ks then ks else ks ++ [k].

Definition current_weights (total : npfloat) (inp : Inputs) : list npfloat :=
  map (fun p => np_div p total) (dict_values (positions inp)).

(** Lines 62 to 64. *)
Definition normalize (target_beta current_beta : npfloat) (cw : list npfloat)
  : list npfloat :=
  let new_weights := map (fun w => np_mul w (np_div target_beta current_beta)) cw in
  map (fun w => np_div w (np_sum new_weights)) new_weights.

(** Lines 77 to 79. *)
Definition share_counts (total : npfloat) (weights prices : list npfloat)
  : list npfloat :=
  map np_rint (map2 np_div (map (fun w => np_mul w total) weights) prices).

(** Lines 47 and 48. *)
Definition historical_returns
    (yf_download : list string -> option (string * string) -> Payload)
    (portfolio : dict npfloat) : result DataFrame :=
  data <- get_historical_data yf_download (dict_keys portfolio)
            "2020-01-01" "2023-01-01" ;;
  calculate_returns data.

(** ** The numeric lines on binary64 numbers

    The same lines on [PrimFloat.float], the IEEE 754 binary64 numbers
    with round-to-nearest, ties to even: each operation below is the
    machine's.  NumPy adds the elements of an array of fewer than eight
    elements in index order, starting from zero; these definitions are
    run on such arrays. *)

Definition np_sum64 (l : list float) : float :=
  fold_left PrimFloat.add l 0%float.

Definition np_dot64 (a b : list float) : float :=
  np_sum64 (map2 PrimFloat.mul a b).

(** A length as a binary64 number, exact below [2^53]. *)
Definition float_of_nat (n : nat) : float :=
  Nat.iter n (fun a => (a + 1)%float) 0%float.

Definition np_mean64 (l : list float) : float :=
  (np_sum64 l / float_of_nat (length l))%float.

Definition np_maximum64 (a b : float) : float :=
  if orb (PrimFloat.is_nan a) (PrimFloat.is_nan b) then PrimFloat.nan
  else if (a <? b)%float then b else a.

Definition np_minimum64 (a b : float) : float :=
  if orb (PrimFloat.is_nan a) (PrimFloat.is_nan b) then PrimFloat.nan
  else if (b <? a)%float then b else a.

Definition np_amax64 (l : list float) : float :=
  match l with
  | [] => PrimFloat.nan
  | h :: t => fold_left np_maximum64 t h
  end.

Definition np_amin64 (l : list float) : float :=
  match l with
  | [] => PrimFloat.nan
  | h :: t => fold_left np_minimum64 t h
  end.

(** [np.rint] as the machine computes it below [2^52] in magnitude: adding
    and taking away [2^52] rounds to the nearest whole number, ties to
    even; from [2^52] on every binary64 number is whole. *)
Definition np_rint64 (x : float) : float :=
  if (PrimFloat.abs x <? 0x1p52)%float then
    if (x <? 0)%float then ((x - 0x1p52) + 0x1p52)%float
    else ((x + 0x1p52) - 0x1p52)%float
  else x.

Definition np_cov_bias64 (x y : list float) : float * float * float * float :=
  let dx := map (fun a => (a - np_mean64 x)%float) x in
  let dy := map (fun a => (a - np_mean64 y)%float) y in
  let f := (1 / float_of_nat (length x))%float in
  let c (u v : list float) := (np_sum64 (map2 PrimFloat.mul u v) * f)%float in
  (c dx dx, c dx dy, c dy dx, c dy dy).

(** The slope and the correlation of [linregress_on]. *)
Definition linregress64 (release : scipy_release) (x y : list float)
  : result (float * float) :=
  let regression (degenerate : float -> float) : result (float * float) :=
    let '(ssxm, ssxym, _, ssym) := np_cov_bias64 x y in
    let r :=
      if orb (ssxm =? 0)%float (ssym =? 0)%float then degenerate ssxym
      else
        let r := (ssxym / PrimFloat.sqrt (ssxm * ssym))%float in
        if (1 <? r)%float then 1%float
        else if (r <? -1)%float then (-1)%float
        else r in
    ret ((ssxym / ssxm)%float, r) in
  match release with
  | scipy_1_13 =>
      if orb (Nat.eqb (length x) 0) (Nat.eqb (length y) 0) then
        raise (ValueError empty_msg)
      else if andb (np_amax64 x =? np_amin64 x)%float (Nat.ltb 1 (length x)) then
        raise (ValueError identical_msg)
      else if negb (Nat.eqb (length x) (length y)) then
        raise (ValueError mismatch_msg)
      else regression (fun _ => 0%float)
  | scipy_1_17 =>
      if orb (existsb PrimFloat.is_nan x) (existsb PrimFloat.is_nan y) then
        ret (PrimFloat.nan, PrimFloat.nan)
      else if orb (Nat.leb (length x) 1) (Nat.leb (length y) 1) then
        ret (PrimFloat.nan, PrimFloat.nan)
      else if (np_amax64 x =? np_amin64 x)%float then
        raise (ValueError identical_msg)
      else if negb (Nat.eqb (length x) (length y)) then
        raise (ValueError mismatch_msg)
      else regression
             (fun ssxym => if (ssxym =? 0)%float then PrimFloat.nan else 0%float)
  end.

Definition calculate_beta64 (release : scipy_release)
    (asset_returns benchmark_returns : list float) : result (float * float) :=
  reg <- linregress64 release benchmark_returns asset_returns ;;
  ret (fst reg, (snd reg * snd reg)%float).

(** Line 58. *)
Definition current_weights64 (total : float) (positions : list float) : list float :=
  map (fun p => (p / total)%float) positions.

(** Lines 62 to 64. *)
Definition normalize64 (target_beta current_beta : float) (cw : list float)
  : list float :=
  let new_weights := map (fun w => (w * (target_beta / current_beta))%float) cw in
  map (fun w => (w / np_sum64 new_weights)%float) new_weights.

(** Lines 77 to 79. *)
Definition share_counts64 (total : float) (weights prices : list float) : list float :=
  map np_rint64 (map2 PrimFloat.div (map (fun w => (w * total)%float) weights) prices).

(** Lines 58 to 64 and 77 to 79 on arrays of one length: the current
    weights, the adjusted weights and the new share counts. *)
Definition rebalance64 (positions betas prices : list float) (total target : float)
  : list float * list float * list float :=
  let current_weights := current_weights64 total positions in
  let current_beta := np_dot64 betas current_weights in
  let normalized_weights := normalize64 target current_beta current_weights in
  (current_weights, normalized_weights, share_counts64 total normalized_weights prices).

(** ** The numeric lines up to rounding

    Real arithmetic in which every operation is followed by a rounding
    [rnd].  What is asked of [rnd] is what binary64 round-to-nearest
    gives: on a result between [2^-1000] and [2^1000] in magnitude, well
    inside the normal range, a relative error of at most [2^-53]. *)

Definition unit_roundoff : R := / 2 ^ 53.

(** [x] is at most [2^k] and at least [2^-k] in magnitude. *)
Definition magnitude (k : nat) (x : R) : Prop := / 2 ^ k <= Rabs x <= 2 ^ k.

Definition rounding (rnd : R -> R) : Prop :=
  forall x, magnitude 1000 x -> Rabs (rnd x - x) <= unit_roundoff * Rabs x.

(** [a.sum()] of an array that is not empty: partial sums are added two
    at a time, each addition rounded, in whatever order and grouping the
    library chooses (NumPy adds pairwise, eight running sums at a time;
    the zero it starts from changes nothing). *)
Inductive summed (rnd : R -> R) : list R -> R -> Prop :=
| summed_one x : summed rnd [x] x
| summed_add l1 l2 a b :
    summed rnd l1 a -> summed rnd l2 b -> summed rnd (l1 ++ l2) (rnd (a + b))
| summed_perm l l' a : Permutation l l' -> summed rnd l a -> summed rnd l' a.




(** Lines 62 and 63. *)
Definition new_weights_fl (rnd : R -> R) (target_beta current_beta : R) (cw : list R)
  : list R :=
  map (fun w => rnd (w * rnd (target_beta / current_beta))) cw.

(** Line 64, [total] being a value of [new_weights.sum()]. *)
Definition normalized_fl (rnd : R -> R) (total : R) (new_weights : list R) : list R :=
  map (fun w => rnd (w / total)) new_weights.

(** Lines 77 to 79: rounding a binary64 number to a whole number is
    exact. *)
Definition new_shares_fl (rnd : R -> R) (total : R) (weights prices : list R) : list R :=
  map2 (fun w p => IZR (round_half_even (rnd (rnd (w * total) / p)))) weights prices.

(** [a] is [b] up to [k] roundings: [b] times a factor between
    [(1 - 2^-53)^k] and its inverse. *)
Definition approx (k : nat) (a b : R) : Prop :=
  exists f, (1 - unit_roundoff) ^ k <= f <= / (1 - unit_roundoff) ^ k /\ a = b * f.

Definition same_sign (l : list R) : Prop :=
  Forall (fun b => 0 < b) l \/ Forall (fun b => b < 0) l.

(** A price that, divided by another such price, neither overflows nor
    underflows binary64. *)
Definition price_in_range (a : npfloat) : Prop :=
  exists x, a = Fin x /\ / 2 ^ 500 <= x <= 2 ^ 500.

(** ** Inputs to run the program on *)

(** A table of one row, and a table of two rows without any column. *)
Definition one_row : DataFrame := mkDataFrame ["A"%string] [fun _ => Fin 50].

Definition no_columns : DataFrame :=
  mkDataFrame [] [fun _ => Fin 1; fun _ => Fin 1].

Definition two_rows : DataFrame :=
  mkDataFrame ["A"%string] [fun _ => Fin 1; fun _ => Fin 2].

(** Three trading days of prices for two assets and the benchmark: asset
    "A" moves with "SPY", asset "B" stays at 50.  The last day gives the
    current prices. *)
Definition price_row (a b spy : R) : string -> npfloat :=
  fun c =>
    if String.eqb c "A" then Fin a
    else if String.eqb c "B" then Fin b
    else if String.eqb c "SPY" then Fin spy
    else NaN.

Definition market_rows : list (string -> npfloat) :=
  [price_row 1 50 1; price_row 2 50 2; price_row 1 50 1].

Definition market : list string -> option (string * string) -> Payload :=
  fun tickers _ => [("Close"%string, mkDataFrame tickers market_rows)].

(** A source whose payload has no price field. *)
Definition no_prices : list string -> option (string * string) -> Payload :=
  fun tickers _ => [("Volume"%string, mkDataFrame tickers market_rows)].

Definition holding_A : dict npfloat := [("A"%string, Fin 10)].
Definition holding_B : dict npfloat := [("B"%string, Fin 10)].

Definition spy_log_returns : list R := [ln (2 / 1); ln (1 / 2)].

Definition inputs_A : Inputs :=
  mkInputs (mkSeries ["A"%string] (price_row 1 50 1))
    [("A"%string, Fin (10 * 1))] [("A"%string, Fin 1)].

Definition inputs_B : Inputs :=
  mkInputs (mkSeries ["B"%string] (price_row 1 50 1))
    [("B"%string, Fin (10 * 50))] [("B"%string, Fin 0)].

(** The result for ten shares of "A" against a total of 20. *)
Definition result_A (target : npfloat) : RebalanceResult :=
  mkRebalanceResult ["A"%string] [Fin 10] [Fin 1] [Fin 1]
    (map Fin [10 * 1 / 20])
    (normalize target (Fin (1 / 2)) (map Fin [10 * 1 / 20]))
    (share_counts (Fin 20)
       (normalize target (Fin (1 / 2)) (map Fin [10 * 1 / 20])) [Fin 1]).

(** A source whose price table has the one column "A" whatever is asked,
    and a source whose price table has no row. *)
Definition fixed_market : list string -> option (string * string) -> Payload :=
  fun _ _ => [("Close"%string, mkDataFrame ["A"%string] market_rows)].

Definition empty_market : list string -> option (string * string) -> Payload :=
  fun tickers _ => [("Close"%string, mkDataFrame tickers [])].

(** The benchmark itself as the one holding, and a source whose price
    table has the one column "SPY". *)
Definition spy_market : list string -> option (string * string) -> Payload :=
  fun _ _ => [("Close"%string, mkDataFrame ["SPY"%string] market_rows)].

Definition holding_SPY : dict npfloat := [("SPY"%string, Fin 1)].

Definition inputs_SPY : Inputs :=
  mkInputs (mkSeries ["SPY"%string] (price_row 1 50 1))
    [("SPY"%string, Fin (1 * 1))] [("SPY"%string, Fin 1)].

Definition returns_SPY : DataFrame :=
  mkDataFrame ["SPY"%string]
    [log_ratio (price_row 1 50 1) (price_row 2 50 2);
     log_ratio (price_row 2 50 2) (price_row 1 50 1)].

(** The rounding that changes nothing, to run the rounded lines on. *)
Definition no_rounding : R -> R := fun x => x.

(** A price of 1, then a price of 0. *)
Definition zero_price_table : DataFrame :=
  mkDataFrame ["A"%string] [fun _ => Fin 1; fun _ => Fin 0].

(** * Lemmas on the arithmetic *)

Lemma Rcompare_lt x y : x < y -> Rcompare x y = Lt.
Proof. intros H. destruct (Rcompare_spec x y); auto; lra. Qed.

Lemma Rcompare_gt x y : y < x -> Rcompare x y = Gt.
Proof. intros H. destruct (Rcompare_spec x y); auto; lra. Qed.

Lemma Rcompare_refl x : Rcompare x x = Eq.
Proof. destruct (Rcompare_spec x x); auto; lra. Qed.

Lemma Rcompare_eq_inv x y : Rcompare x y = Eq -> x = y.
Proof. destruct (Rcompare_spec x y); auto; discriminate. Qed.

(** Settle the sign tests of a goal whose operands are known. *)
Ltac rcmp :=
  repeat first
    [ rewrite Rcompare_refl
    | rewrite Rcompare_lt by lra
    | rewrite Rcompare_gt by lra ].

Lemma np_div_Fin x y : y <> 0 -> np_div (Fin x) (Fin y) = Fin (x / y).
Proof.
  intros H. simpl. destruct (Rcompare_spec y 0); auto; contradiction.
Qed.

Lemma np_div_zero x : np_div (Fin x) (Fin 0) = inf_of_sign (Rcompare x 0).
Proof. simpl. now rewrite Rcompare_refl. Qed.

Lemma np_eqb_Fin x y : np_eqb (Fin x) (Fin y) = true <-> x = y.
Proof.
  simpl. destruct (Rcompare_spec x y); split; auto; try discriminate; lra.
Qed.

Lemma np_eqb_Fin_false x y : x <> y -> np_eqb (Fin x) (Fin y) = false.
Proof.
  intros H. destruct (np_eqb (Fin x) (Fin y)) eqn:E; auto.
  apply np_eqb_Fin in E. contradiction.
Qed.

Lemma np_ltb_Fin x y : np_ltb (Fin x) (Fin y) = true <-> x < y.
Proof.
  simpl. destruct (Rcompare_spec x y); split; auto; try discriminate; lra.
Qed.

(** ** Sums of finite values *)

Lemma fold_add_Fin xs a :
  fold_left np_add (map Fin xs) (Fin a) = Fin (a + Rsum xs).
Proof.
  revert a. induction xs as [|x xs IH]; intros a; simpl.
  - f_equal. lra.
  - rewrite IH. f_equal. lra.
Qed.

Lemma np_sum_Fin xs : np_sum (map Fin xs) = Fin (Rsum xs).
Proof. unfold np_sum. rewrite fold_add_Fin. f_equal. lra. Qed.

Lemma map2_Fin (f : npfloat -> npfloat -> npfloat) (g : R -> R -> R) xs ys :
  (forall x y, f (Fin x) (Fin y) = Fin (g x y)) ->
  map2 f (map Fin xs) (map Fin ys) = map Fin (map2 g xs ys).
Proof.
  intros H. revert ys. induction xs as [|x xs IH]; intros [|y ys]; simpl; auto.
  now rewrite H, IH.
Qed.

Lemma INR_length_pos {A} (l : list A) : l <> [] -> 0 < INR (length l).
Proof.
  intros H. apply lt_0_INR. destruct l; [contradiction | simpl; lia].
Qed.

Lemma np_mean_Fin xs : xs <> [] -> np_mean (map Fin xs) = Fin (Rmean xs).
Proof.
  intros H. unfold np_mean, Rmean. rewrite np_sum_Fin, length_map.
  apply np_div_Fin. pose proof (INR_length_pos xs H). lra.
Qed.

Lemma np_cov_bias_Fin xs ys :
  xs <> [] -> ys <> [] ->
  np_cov_bias (map Fin xs) (map Fin ys) =
  (Fin (covariance xs xs), Fin (covariance xs ys),
   Fin (Rsum (map2 Rmult (deviations ys) (deviations xs)) * (1 / INR (length xs))),
   Fin (Rsum (map2 Rmult (deviations ys) (deviations ys)) * (1 / INR (length xs)))).
Proof.
  intros Hx Hy. unfold np_cov_bias, covariance.
  rewrite !np_mean_Fin by assumption. rewrite !map_map. rewrite length_map.
  assert (D : forall l m, map (fun x => np_sub (Fin x) (Fin m)) l
                          = map Fin (map (fun x => x + - m) l)).
  { intros l m. rewrite map_map. reflexivity. }
  rewrite !D. fold (deviations xs) (deviations ys).
  rewrite !(map2_Fin np_mul Rmult) by reflexivity.
  rewrite !np_sum_Fin.
  rewrite np_div_Fin by (pose proof (INR_length_pos xs Hx); lra).
  reflexivity.
Qed.

(** ** Variance *)

Lemma map2_diag {A B} (f : A -> A -> B) l : map2 f l l = map (fun a => f a a) l.
Proof. induction l as [|a l IH]; simpl; congruence. Qed.

Lemma Rsum_squares_nonneg l : 0 <= Rsum (map (fun a => a * a) l).
Proof.
  induction l as [|a l IH]; simpl; [lra|]. pose proof (Rle_0_sqr a) as H.
  unfold Rsqr in H. lra.
Qed.

Lemma Rsum_squares_zero l :
  Rsum (map (fun a => a * a) l) = 0 -> Forall (fun a => a = 0) l.
Proof.
  induction l as [|a l IH]; simpl; intros H; constructor.
  - pose proof (Rsum_squares_nonneg l). pose proof (Rle_0_sqr a) as Ha.
    unfold Rsqr in Ha. assert (a * a = 0) by lra.
    destruct (Rmult_integral _ _ H1); assumption.
  - apply IH. pose proof (Rsum_squares_nonneg l). pose proof (Rle_0_sqr a) as Ha.
    unfold Rsqr in Ha. lra.
Qed.

Lemma variance_nonneg xs : 0 <= variance xs.
Proof.
  unfold variance, covariance. rewrite map2_diag.
  destruct xs as [|x xs].
  - simpl. lra.
  - apply Rmult_le_pos; [apply Rsum_squares_nonneg|].
    pose proof (INR_length_pos (x :: xs)) as H.
    assert (0 < INR (length (x :: xs))) by (apply H; discriminate).
    apply Rlt_le. unfold Rdiv. rewrite Rmult_1_l. now apply Rinv_0_lt_compat.
Qed.

Lemma Rsum_const (h : R) l :
  Forall (fun a => a = h) l -> Rsum l = INR (length l) * h.
Proof.
  induction 1 as [|a l Ha _ IH]; [simpl; lra|].
  change (length (a :: l)) with (S (length l)). rewrite S_INR.
  simpl. rewrite IH, Ha. lra.
Qed.

(** A constant sequence has deviations zero, and conversely a sequence of
    variance zero is constant. *)
Lemma deviations_const (h : R) l :
  Forall (fun a => a = h) l -> Forall (fun d => d = 0) (deviations l).
Proof.
  intros H. destruct l as [|a l]; [constructor|].
  assert (M : Rmean (a :: l) = h).
  { unfold Rmean. rewrite (Rsum_const h) by assumption.
    pose proof (INR_length_pos (a :: l)) as P.
    assert (0 < INR (length (a :: l))) by (apply P; discriminate).
    field. lra. }
  unfold deviations. rewrite M. apply Forall_map.
  eapply Forall_impl; [|exact H]. simpl. intros x ->. lra.
Qed.

Lemma Rsum_map2_zero_l ds es :
  Forall (fun d => d = 0) ds -> Rsum (map2 Rmult ds es) = 0.
Proof.
  intros H. revert es. induction H as [|d ds Hd _ IH]; intros [|e es]; simpl; auto.
  rewrite IH, Hd. lra.
Qed.

Lemma covariance_const_l (h : R) xs ys :
  Forall (fun a => a = h) xs -> covariance xs ys = 0.
Proof.
  intros H. unfold covariance.
  rewrite Rsum_map2_zero_l by (eapply deviations_const; eauto). lra.
Qed.

Lemma variance_zero_const xs :
  variance xs = 0 -> Forall (fun a => a = Rmean xs) xs.
Proof.
  unfold variance, covariance. rewrite map2_diag. intros H.
  destruct xs as [|x xs]; [constructor|].
  assert (P : 0 < INR (length (x :: xs))) by (apply INR_length_pos; discriminate).
  assert (Z : Rsum (map (fun a => a * a) (deviations (x :: xs))) = 0).
  { destruct (Rmult_integral _ _ H) as [E|E]; [exact E|].
    exfalso. unfold Rdiv in E. rewrite Rmult_1_l in E.
    pose proof (Rinv_0_lt_compat _ P). lra. }
  apply Rsum_squares_zero in Z. unfold deviations in Z.
  rewrite Forall_map in Z. eapply Forall_impl; [|exact Z].
  simpl. intros a Ha. lra.
Qed.

Lemma variance_pos_not_const xs (h : R) :
  0 < variance xs -> ~ Forall (fun a => a = h) xs.
Proof.
  intros V H. unfold variance in V.
  rewrite (covariance_const_l h) in V by assumption. lra.
Qed.

(** ** Largest and smallest element *)

Lemma np_maximum_Fin a b : np_maximum (Fin a) (Fin b) = Fin (Rmax a b).
Proof.
  unfold np_maximum. destruct (np_ltb (Fin a) (Fin b)) eqn:E.
  - apply np_ltb_Fin in E. now rewrite Rmax_right by lra.
  - destruct (Rle_lt_dec b a) as [L|L]; [now rewrite Rmax_left by lra|].
    apply np_ltb_Fin in L. congruence.
Qed.

Lemma np_minimum_Fin a b : np_minimum (Fin a) (Fin b) = Fin (Rmin a b).
Proof.
  unfold np_minimum. destruct (np_ltb (Fin b) (Fin a)) eqn:E.
  - apply np_ltb_Fin in E. now rewrite Rmin_right by lra.
  - destruct (Rle_lt_dec a b) as [L|L]; [now rewrite Rmin_left by lra|].
    apply np_ltb_Fin in L. congruence.
Qed.

Lemma fold_maximum_Fin t h :
  fold_left np_maximum (map Fin t) (Fin h) = Fin (fold_left Rmax t h).
Proof.
  revert h. induction t as [|a t IH]; intros h; cbn [fold_left map]; auto.
  now rewrite np_maximum_Fin, IH.
Qed.

Lemma fold_minimum_Fin t h :
  fold_left np_minimum (map Fin t) (Fin h) = Fin (fold_left Rmin t h).
Proof.
  revert h. induction t as [|a t IH]; intros h; cbn [fold_left map]; auto.
  now rewrite np_minimum_Fin, IH.
Qed.

Lemma fold_Rmax_bound t h :
  h <= fold_left Rmax t h /\ Forall (fun a => a <= fold_left Rmax t h) t.
Proof.
  revert h. induction t as [|a t IH]; intros h; simpl.
  - split; [lra | constructor].
  - destruct (IH (Rmax h a)) as [H1 H2]. pose proof (Rmax_l h a). pose proof (Rmax_r h a).
    split; [lra|]. constructor; [lra | assumption].
Qed.

Lemma fold_Rmin_bound t h :
  fold_left Rmin t h <= h /\ Forall (fun a => fold_left Rmin t h <= a) t.
Proof.
  revert h. induction t as [|a t IH]; intros h; simpl.
  - split; [lra | constructor].
  - destruct (IH (Rmin h a)) as [H1 H2]. pose proof (Rmin_l h a). pose proof (Rmin_r h a).
    split; [lra|]. constructor; [lra | assumption].
Qed.

Lemma fold_Rmax_const t h :
  Forall (fun a => a = h) t -> fold_left Rmax t h = h.
Proof.
  induction 1 as [|a t Ha _ IH]; simpl; auto.
  rewrite Ha, Rmax_left by lra. exact IH.
Qed.

Lemma fold_Rmin_const t h :
  Forall (fun a => a = h) t -> fold_left Rmin t h = h.
Proof.
  induction 1 as [|a t Ha _ IH]; simpl; auto.
  rewrite Ha, Rmin_left by lra. exact IH.
Qed.

(** The test [np.amax(x) == np.amin(x)] holds exactly on a constant
    sequence. *)
Lemma amax_eq_amin h t :
  np_eqb (np_amax (map Fin (h :: t))) (np_amin (map Fin (h :: t))) = true
  <-> Forall (fun a => a = h) t.
Proof.
  cbn [map np_amax np_amin].
  rewrite fold_maximum_Fin, fold_minimum_Fin, np_eqb_Fin. split.
  - intros E. destruct (fold_Rmax_bound t h) as [M1 M2].
    destruct (fold_Rmin_bound t h) as [m1 m2]. rewrite E in M1, M2.
    rewrite Forall_forall in *. intros a Ha.
    specialize (M2 a Ha). specialize (m2 a Ha). lra.
  - intros H. now rewrite fold_Rmax_const, fold_Rmin_const.
Qed.

(** ** Regression on finite sequences *)

Lemma covariance_length_sym (xs ys : list R) :
  length xs = length ys ->
  Rsum (map2 Rmult (deviations ys) (deviations ys)) * (1 / INR (length xs))
  = variance ys.
Proof. intros H. unfold variance, covariance. now rewrite H. Qed.

Lemma np_clip_Fin r :
  (if np_gtb (Fin r) (Fin 1) then Fin 1
   else if np_ltb (Fin r) (Fin (-1)) then Fin (-1) else Fin r)
  = Fin (Rclip r).
Proof.
  unfold np_gtb, np_ltb, Rclip.
  destruct (Rcompare 1 r); destruct (Rcompare r (-1)); reflexivity.
Qed.

(** On a benchmark that is not constant the regression succeeds, and its
    slope is the covariance over the benchmark's variance. *)
Lemma linregress_Fin (xs ys : list R) :
  length xs = length ys -> 0 < variance xs ->
  linregress (map Fin xs) (map Fin ys)
  = ret (mkLinregress (Fin (covariance xs ys / variance xs))
                      (Fin (correlation xs ys))).
Proof.
  intros L V.
  assert (Hx : xs <> []).
  { intros ->. unfold variance, covariance in V. simpl in V. lra. }
  assert (Hy : ys <> []) by (intros ->; destruct xs; [congruence | discriminate]).
  unfold linregress. rewrite !length_map.
  destruct xs as [|h t]; [congruence|].
  destruct ys as [|h' t']; [congruence|].
  cbn [length Nat.eqb orb].
  destruct (np_eqb (np_amax (map Fin (h :: t))) (np_amin (map Fin (h :: t)))) eqn:E.
  { apply amax_eq_amin in E. exfalso.
    apply (variance_pos_not_const (h :: t) h V). now constructor. }
  cbn [andb]. injection L as L. rewrite L, Nat.eqb_refl. cbn [negb].
  rewrite np_cov_bias_Fin by assumption.
  rewrite covariance_length_sym by (simpl; congruence).
  fold (variance (h :: t)).
  set (vx := variance (h :: t)) in *. set (vy := variance (h' :: t')).
  set (c := covariance (h :: t) (h' :: t')).
  rewrite (np_eqb_Fin_false vx 0) by lra. cbn [orb].
  rewrite np_div_Fin by lra.
  unfold correlation. fold vx vy c.
  pose proof (variance_nonneg (h' :: t')) as Vy. fold vy in Vy.
  destruct (Rcompare_spec vy 0) as [Z|Z|Z].
  - rewrite Z. cbn [np_eqb]. rewrite Rcompare_refl. reflexivity.
  - lra.
  - rewrite (np_eqb_Fin_false vy 0) by lra.
    assert (P : 0 < vx * vy) by (apply Rmult_lt_0_compat; lra).
    cbn [np_mul np_sqrt]. rewrite (Rcompare_gt (vx * vy) 0) by lra.
    pose proof (sqrt_lt_R0 _ P) as S.
    rewrite np_div_Fin by lra. now rewrite np_clip_Fin.
Qed.

(** [calculate_beta] on finite sequences. *)
Lemma calculate_beta_Fin (xs ys : list R) :
  length xs = length ys -> 0 < variance xs ->
  calculate_beta (map Fin ys) (map Fin xs)
  = ret (Fin (covariance xs ys / variance xs),
         Fin (correlation xs ys * correlation xs ys)).
Proof.
  intros L V. unfold calculate_beta. now rewrite linregress_Fin.
Qed.

Lemma correlation_self xs : 0 < variance xs -> correlation xs xs = 1.
Proof.
  intros V. unfold correlation. rewrite Rcompare_gt by lra.
  fold (variance xs). rewrite sqrt_square by lra.
  replace (variance xs / variance xs) with 1 by (field; lra).
  unfold Rclip. now rcmp.
Qed.

(** * Arithmetic up to rounding *)

Lemma pow2_53 : 2 ^ 53 = 9007199254740992.
Proof. simpl. lra. Qed.

Lemma unit_roundoff_bounds : 0 < unit_roundoff /\ 4096 * unit_roundoff <= 1 / 10 ^ 12.
Proof.
  unfold unit_roundoff. rewrite pow2_53. split.
  - apply Rinv_0_lt_compat. lra.
  - simpl. lra.
Qed.

Lemma factor_bounds : 0 < 1 - unit_roundoff <= 1.
Proof. destruct unit_roundoff_bounds. lra. Qed.

Lemma factor_pow_bounds k : 0 < (1 - unit_roundoff) ^ k <= 1.
Proof.
  destruct factor_bounds as [P L]. split; [now apply pow_lt|].
  induction k as [|k IH]; simpl; [lra|].
  pose proof (pow_lt _ k P). nra.
Qed.

Lemma factor_pow_le i j :
  (i <= j)%nat -> (1 - unit_roundoff) ^ j <= (1 - unit_roundoff) ^ i.
Proof.
  intros H. replace j with (i + (j - i))%nat by lia. rewrite pow_add.
  destruct (factor_pow_bounds i), (factor_pow_bounds (j - i)). nra.
Qed.

Lemma factor_pow_bernoulli k :
  1 - INR k * unit_roundoff <= (1 - unit_roundoff) ^ k.
Proof.
  destruct unit_roundoff_bounds as [P _]. destruct factor_bounds as [Q _].
  induction k as [|k IH]; [simpl; lra|].
  rewrite S_INR. cbn [pow]. pose proof (pos_INR k).
  destruct (factor_pow_bounds k). nra.
Qed.

Lemma approx_refl a : approx 0 a a.
Proof. exists 1. simpl. split; [lra | ring]. Qed.

Lemma approx_weaken i j a b : (i <= j)%nat -> approx i a b -> approx j a b.
Proof.
  intros L (f & [F1 F2] & E). exists f. split; [|exact E].
  pose proof (factor_pow_le i j L). destruct (factor_pow_bounds i), (factor_pow_bounds j).
  split; [lra|]. apply Rle_trans with (1 := F2).
  apply Rinv_le_contravar; assumption.
Qed.

Lemma approx_mul i j a b c d :
  approx i a b -> approx j c d -> approx (i + j) (a * c) (b * d).
Proof.
  intros (f & [F1 F2] & ->) (g & [G1 G2] & ->). exists (f * g).
  destruct (factor_pow_bounds i) as [Pi _], (factor_pow_bounds j) as [Pj _].
  rewrite pow_add. split; [|ring]. split.
  - apply Rmult_le_compat; lra.
  - rewrite Rinv_mult. apply Rmult_le_compat; lra.
Qed.

Lemma approx_div i j a b c d :
  d <> 0 -> approx i a b -> approx j c d -> approx (i + j) (a / c) (b / d).
Proof.
  intros D (f & [F1 F2] & ->) (g & [G1 G2] & ->).
  destruct (factor_pow_bounds i) as [Pi _], (factor_pow_bounds j) as [Pj _].
  assert (Pg : 0 < g) by lra. assert (Pf : 0 < f) by lra.
  exists (f / g). rewrite pow_add. split; [|field; split; lra].
  assert (Ig : (1 - unit_roundoff) ^ j <= / g <= / (1 - unit_roundoff) ^ j).
  { split.
    - rewrite <- (Rinv_inv ((1 - unit_roundoff) ^ j)).
      apply Rinv_le_contravar; [lra | exact G2].
    - apply Rinv_le_contravar; assumption. }
  assert (0 < / g) by now apply Rinv_0_lt_compat.
  unfold Rdiv. split.
  - apply Rmult_le_compat; lra.
  - rewrite Rinv_mult. apply Rmult_le_compat; lra.
Qed.

Lemma magnitude_nonzero k x : magnitude k x -> x <> 0.
Proof.
  intros [L _] ->. rewrite Rabs_R0 in L.
  assert (0 < / 2 ^ k) by (apply Rinv_0_lt_compat, pow_lt; lra). lra.
Qed.

Lemma approx_rnd rnd k a b :
  rounding rnd -> magnitude 1000 a -> approx k a b -> approx (S k) (rnd a) b.
Proof.
  intros Hr M (f & [F1 F2] & E).
  pose proof (magnitude_nonzero _ _ M) as N. pose proof (Hr a M) as B.
  destruct unit_roundoff_bounds as [U _]. destruct factor_bounds as [Q _].
  destruct (factor_pow_bounds k) as [Pk _].
  set (d := (rnd a - a) / a).
  assert (D : Rabs d <= unit_roundoff).
  { unfold d, Rdiv. rewrite Rabs_mult, Rabs_inv.
    pose proof (Rabs_pos_lt a N). apply (Rmult_le_reg_r (Rabs a)); [assumption|].
    rewrite Rmult_assoc, Rinv_l by lra. lra. }
  assert (D' : - unit_roundoff <= d <= unit_roundoff)
    by (unfold Rabs in D; destruct (Rcase_abs d); lra).
  exists (f * (1 + d)). split.
  - cbn [pow]. split; [nra|].
    rewrite Rinv_mult.
    assert (1 + d <= / (1 - unit_roundoff)).
    { apply (Rmult_le_reg_r (1 - unit_roundoff)); [assumption|].
      rewrite Rinv_l by lra. nra. }
    assert (0 < / (1 - unit_roundoff) ^ k) by now apply Rinv_0_lt_compat.
    rewrite Rmult_comm. apply Rmult_le_compat; lra.
  - replace (rnd a) with (a * (1 + d)) by (unfold d; field; assumption).
    rewrite E. ring.
Qed.

Lemma approx_add k a1 b1 a2 b2 :
  0 < b1 * b2 -> approx k a1 b1 -> approx k a2 b2 -> approx k (a1 + a2) (b1 + b2).
Proof.
  intros S (f & [F1 F2] & ->) (g & [G1 G2] & ->).
  assert (N : b1 + b2 <> 0) by nra.
  exists ((b1 * f + b2 * g) / (b1 + b2)). split; [|field; assumption].
  set (lo := (1 - unit_roundoff) ^ k) in *. set (hi := / (1 - unit_roundoff) ^ k) in *.
  destruct (Rlt_or_le 0 b1) as [P|P].
  - assert (0 < b2) by nra. assert (0 < b1 + b2) by lra. split.
    + apply (Rmult_le_reg_r (b1 + b2)); [assumption|].
      unfold Rdiv. rewrite Rmult_assoc, Rinv_l by lra. nra.
    + apply (Rmult_le_reg_r (b1 + b2)); [assumption|].
      unfold Rdiv. rewrite Rmult_assoc, Rinv_l by lra. nra.
  - assert (b1 < 0) by nra. assert (b2 < 0) by nra.
    assert (0 < - (b1 + b2)) by lra. split.
    + apply (Rmult_le_reg_r (- (b1 + b2))); [assumption|].
      replace ((b1 * f + b2 * g) / (b1 + b2) * - (b1 + b2)) with (- (b1 * f + b2 * g))
        by (field; assumption). nra.
    + apply (Rmult_le_reg_r (- (b1 + b2))); [assumption|].
      replace ((b1 * f + b2 * g) / (b1 + b2) * - (b1 + b2)) with (- (b1 * f + b2 * g))
        by (field; assumption). nra.
Qed.

Lemma pow2_pos k : 0 < 2 ^ k.
Proof. apply pow_lt. lra. Qed.

Lemma pow2_le i j : (i <= j)%nat -> 2 ^ i <= 2 ^ j.
Proof. intros H. apply Rle_pow; [lra | exact H]. Qed.

Lemma magnitude_weaken i j x : (i <= j)%nat -> magnitude i x -> magnitude j x.
Proof.
  intros L [A B]. pose proof (pow2_le i j L). pose proof (pow2_pos i). split.
  - apply Rle_trans with (2 := A). apply Rinv_le_contravar; assumption.
  - lra.
Qed.

Lemma magnitude_mul i j x y :
  magnitude i x -> magnitude j y -> magnitude (i + j) (x * y).
Proof.
  unfold magnitude. rewrite Rabs_mult, pow_add, Rinv_mult. intros [A B] [C D].
  pose proof (pow2_pos i). pose proof (pow2_pos j).
  assert (0 < / 2 ^ i) by now apply Rinv_0_lt_compat.
  assert (0 < / 2 ^ j) by now apply Rinv_0_lt_compat.
  split; apply Rmult_le_compat; lra.
Qed.

Lemma magnitude_inv i x : magnitude i x -> magnitude i (/ x).
Proof.
  unfold magnitude. rewrite Rabs_inv. intros [A B].
  pose proof (pow2_pos i). assert (0 < / 2 ^ i) by now apply Rinv_0_lt_compat.
  split.
  - apply Rinv_le_contravar; lra.
  - rewrite <- (Rinv_inv (2 ^ i)). apply Rinv_le_contravar; lra.
Qed.

Lemma magnitude_div i j x y :
  magnitude i x -> magnitude j y -> magnitude (i + j) (x / y).
Proof. intros A B. apply magnitude_mul; [exact A | now apply magnitude_inv]. Qed.

Lemma magnitude_opp i x : magnitude i x -> magnitude i (- x).
Proof. unfold magnitude. now rewrite Rabs_Ropp. Qed.

(** After at most 4096 roundings the factor lies within 1e-12 of 1. *)
Lemma approx_factor k a b :
  (k <= 4096)%nat -> approx k a b ->
  exists f, 1 - 1 / 10 ^ 12 <= f <= 1 + 2 / 10 ^ 12 /\ a = b * f.
Proof.
  intros K (f & [F1 F2] & E). exists f. split; [|exact E].
  destruct unit_roundoff_bounds as [U1 U2].
  pose proof (factor_pow_bernoulli k) as B.
  assert (I : INR k <= 4096).
  { replace 4096 with (INR 4096) by (simpl; lra). now apply le_INR. }
  assert (D : 1 - 1 / 10 ^ 12 <= (1 - unit_roundoff) ^ k) by nra.
  assert (T : 1 / 10 ^ 12 <= 1 / 2) by (simpl; lra).
  split; [lra|]. apply Rle_trans with (1 := F2).
  apply (Rmult_le_reg_r ((1 - unit_roundoff) ^ k)); [lra|].
  rewrite Rinv_l by lra. nra.
Qed.

Lemma approx_magnitude k m a b :
  (k <= 4096)%nat -> approx k a b -> magnitude m b -> magnitude (S m) a.
Proof.
  intros K A M. destruct (approx_factor _ _ _ K A) as (f & [F1 F2] & ->).
  assert (T : 1 / 10 ^ 12 <= 1 / 4) by (simpl; lra).
  replace (S m) with (m + 1)%nat by lia. apply magnitude_mul; [exact M|].
  unfold magnitude. rewrite Rabs_right by lra. simpl. lra.
Qed.

(** Sums *)

Lemma Rsum_app l1 l2 : Rsum (l1 ++ l2) = Rsum l1 + Rsum l2.
Proof. induction l1 as [|a l1 IH]; simpl; [lra|]. rewrite IH. lra. Qed.

Lemma Rsum_perm l l' : Permutation l l' -> Rsum l = Rsum l'.
Proof. induction 1; simpl; lra. Qed.

Lemma Rsum_opp l : Rsum (map Ropp l) = - Rsum l.
Proof. induction l as [|a l IH]; simpl; [lra|]. rewrite IH. lra. Qed.

Lemma Rsum_positive_bounds m l :
  l <> [] -> Forall (fun b => 0 < b) l -> Forall (magnitude m) l ->
  / 2 ^ m <= Rsum l <= INR (length l) * 2 ^ m.
Proof.
  intros N P M. induction P as [|b l Hb P IH]; [congruence|].
  inversion M as [|? ? [M1 M2] M']; subst. rewrite Rabs_right in M1, M2 by lra.
  pose proof (pow2_pos m). assert (0 < / 2 ^ m) by now apply Rinv_0_lt_compat.
  change (Rsum (b :: l)) with (b + Rsum l). change (length (b :: l)) with (S (length l)).
  rewrite S_INR. destruct l as [|b' l].
  - simpl. lra.
  - assert (Q : b' :: l <> []) by discriminate. specialize (IH Q M'). lra.
Qed.

Lemma INR_1024 n : (n <= 1024)%nat -> INR n <= 2 ^ 10.
Proof.
  intros H. apply le_INR in H. replace (INR 1024) with (2 ^ 10) in H by (simpl; lra).
  exact H.
Qed.

Lemma Rsum_positive_magnitude m l :
  l <> [] -> (length l <= 1024)%nat ->
  Forall (fun b => 0 < b) l -> Forall (magnitude m) l ->
  0 < Rsum l /\ magnitude (m + 10) (Rsum l).
Proof.
  intros N L P M. destruct (Rsum_positive_bounds m l N P M) as [A B].
  pose proof (pow2_pos m). assert (0 < / 2 ^ m) by now apply Rinv_0_lt_compat.
  split; [lra|]. unfold magnitude. rewrite Rabs_right by lra. split.
  - apply Rle_trans with (2 := A). apply Rinv_le_contravar; [assumption|].
    apply pow2_le. lia.
  - apply Rle_trans with (1 := B). rewrite pow_add, Rmult_comm.
    apply Rmult_le_compat_l; [lra|]. now apply INR_1024.
Qed.

Lemma same_sign_sum m l :
  l <> [] -> (length l <= 1024)%nat -> same_sign l -> Forall (magnitude m) l ->
  magnitude (m + 10) (Rsum l)
  /\ (Forall (fun b => 0 < b) l -> 0 < Rsum l)
  /\ (Forall (fun b => b < 0) l -> Rsum l < 0).
Proof.
  intros N L S M.
  assert (Neg : Forall (fun b => b < 0) l -> Rsum l < 0 /\ magnitude (m + 10) (Rsum l)).
  { intros P.
    destruct (Rsum_positive_magnitude m (map Ropp l)) as [A B].
    - destruct l; [congruence | discriminate].
    - now rewrite length_map.
    - apply Forall_map. eapply Forall_impl; [|exact P]. simpl. intros; lra.
    - apply Forall_map. eapply Forall_impl; [|exact M]. intros a. apply magnitude_opp.
    - rewrite Rsum_opp in A, B. split; [lra|].
      apply magnitude_opp in B. now rewrite Ropp_involutive in B. }
  assert (Pos : Forall (fun b => 0 < b) l -> 0 < Rsum l /\ magnitude (m + 10) (Rsum l)).
  { intros P. now apply Rsum_positive_magnitude. }
  split; [destruct S as [P|P]; [apply Pos | apply Neg]; exact P|].
  split; [intros P; apply Pos, P | intros P; apply Neg, P].
Qed.

Lemma summed_length rnd l r : summed rnd l r -> (1 <= length l)%nat.
Proof.
  induction 1 as [x | l1 l2 a b _ IH1 _ IH2 | l l' a P _ IH].
  - simpl. lia.
  - rewrite length_app. lia.
  - now rewrite <- (Permutation_length P).
Qed.

Lemma same_sign_app l1 l2 : same_sign (l1 ++ l2) -> same_sign l1 /\ same_sign l2.
Proof.
  intros [H|H]; apply Forall_app in H as [H1 H2]; split; (now left) || (now right).
Qed.

Lemma same_sign_product m l1 l2 :
  l1 <> [] -> l2 <> [] -> (length (l1 ++ l2) <= 1024)%nat ->
  same_sign (l1 ++ l2) -> Forall (magnitude m) (l1 ++ l2) ->
  0 < Rsum l1 * Rsum l2.
Proof.
  intros N1 N2 L S M. rewrite length_app in L. apply Forall_app in M as [M1 M2].
  destruct S as [P|P]; apply Forall_app in P as [P1 P2].
  - destruct (same_sign_sum m l1) as (_ & A & _); auto; [lia | now left|].
    destruct (same_sign_sum m l2) as (_ & B & _); auto; [lia | now left|].
    specialize (A P1). specialize (B P2). nra.
  - destruct (same_sign_sum m l1) as (_ & _ & A); auto; [lia | now right|].
    destruct (same_sign_sum m l2) as (_ & _ & B); auto; [lia | now right|].
    specialize (A P1). specialize (B P2). nra.
Qed.

(** A rounded sum of [n] terms of one sign, each known to [k] roundings,
    is known to [k + n] roundings. *)
Lemma summed_approx rnd k m l r :
  rounding rnd -> summed rnd l r ->
  forall refs,
    Forall2 (approx k) l refs -> same_sign refs -> Forall (magnitude m) refs ->
    (length l <= 1024)%nat -> (k + length l <= 4096)%nat -> (m + 11 <= 1000)%nat ->
    approx (k + length l) r (Rsum refs).
Proof.
  intros Hr H.
  induction H as [x | l1 l2 a b H1 IH1 H2 IH2 | l l' a P H IH]; intros refs F Sg M L K B.
  - inversion F as [|? y ? refs' Hx F']; subst. inversion F'; subst.
    simpl. rewrite Rplus_0_r. eapply approx_weaken; [|exact Hx]. lia.
  - apply Forall2_app_inv_l in F as (r1 & r2 & F1 & F2 & ->).
    pose proof (summed_length _ _ _ H1) as N1. pose proof (summed_length _ _ _ H2) as N2.
    pose proof (Forall2_length F1) as E1. pose proof (Forall2_length F2) as E2.
    rewrite length_app in L, K.
    destruct (same_sign_app _ _ Sg) as [S1 S2].
    pose proof M as M'. apply Forall_app in M' as [M1 M2].
    assert (A1 : approx (k + length l1) a (Rsum r1)) by (apply IH1; auto; lia).
    assert (A2 : approx (k + length l2) b (Rsum r2)) by (apply IH2; auto; lia).
    assert (R1 : r1 <> []) by (intros ->; simpl in E1; lia).
    assert (R2 : r2 <> []) by (intros ->; simpl in E2; lia).
    assert (A : approx (k + length l1 + length l2 - 1) (a + b) (Rsum r1 + Rsum r2)).
    { apply approx_add.
      - apply (same_sign_product m); auto. rewrite length_app. lia.
      - eapply approx_weaken; [|exact A1]. lia.
      - eapply approx_weaken; [|exact A2]. lia. }
    rewrite Rsum_app, length_app.
    replace (k + (length l1 + length l2))%nat
      with (S (k + length l1 + length l2 - 1)) by lia.
    apply approx_rnd; [exact Hr | | exact A].
    apply (magnitude_weaken (S (m + 10))); [lia|].
    apply (approx_magnitude (k + length l1 + length l2 - 1) _ _ (Rsum r1 + Rsum r2));
      [lia | exact A |].
    rewrite <- Rsum_app.
    apply same_sign_sum; auto.
    + intros Z. apply app_eq_nil in Z as [Z _]. contradiction.
    + rewrite length_app. lia.
  - destruct (Permutation_Forall2 (Permutation_sym P) F) as (refs' & Q & F').
    rewrite (Rsum_perm _ _ Q), <- (Permutation_length P).
    rewrite <- (Permutation_length P) in L, K.
    apply IH; auto.
    + destruct Sg as [Sg|Sg]; [left | right]; eapply Permutation_Forall; eauto.
    + eapply Permutation_Forall; eauto.
Qed.

(** * The beta estimator *)

Lemma calculate_beta_self (xs : list R) :
  0 < variance xs ->
  calculate_beta (map Fin xs) (map Fin xs) = ret (Fin 1, Fin 1).
Proof.
  intros V. rewrite calculate_beta_Fin by auto.
  rewrite correlation_self by assumption. fold (variance xs).
  unfold ret. do 3 f_equal; field; lra.
Qed.

Lemma variance_0_1 : 0 < variance [0; 1].
Proof.
  assert (E : variance [0; 1] = 1 / 4).
  { unfold variance, covariance, deviations, Rmean. simpl. field. }
  rewrite E. lra.
Qed.

Lemma linregress_empty (y : list npfloat) :
  linregress [] y = raise (ValueError empty_msg).
Proof. reflexivity. Qed.

Lemma linregress_constant (xs ys : list R) :
  (2 <= length xs)%nat -> ys <> [] -> variance xs = 0 ->
  linregress (map Fin xs) (map Fin ys) = raise (ValueError identical_msg).
Proof.
  intros L Hy V. apply variance_zero_const in V.
  destruct xs as [|h t]; [simpl in L; lia|].
  destruct ys as [|h' t']; [congruence|].
  unfold linregress. rewrite !length_map. cbn [length Nat.eqb orb].
  assert (E : np_eqb (np_amax (map Fin (h :: t))) (np_amin (map Fin (h :: t))) = true).
  { apply amax_eq_amin. inversion V as [|? ? Hh Ht]; subst.
    eapply Forall_impl; [|exact Ht]. simpl. intros a Ha. congruence. }
  rewrite E. destruct t; [simpl in L; lia|]. reflexivity.
Qed.

Lemma linregress_single (x y : R) :
  linregress [Fin x] [Fin y] = ret (mkLinregress NaN (Fin 0)).
Proof.
  unfold linregress. cbn [length Nat.eqb Nat.ltb Nat.leb orb andb negb].
  rewrite andb_false_r.
  change [Fin x] with (map Fin [x]). change [Fin y] with (map Fin [y]).
  rewrite np_cov_bias_Fin by discriminate.
  rewrite !(covariance_const_l x) by (repeat constructor).
  cbn [np_eqb]. rewrite Rcompare_refl. cbn [orb]. now rewrite np_div_zero, Rcompare_refl.
Qed.

Lemma variance_1_1 : variance [1; 1] = 0.
Proof. apply (covariance_const_l 1). repeat constructor. Qed.

(** ** The two SciPy releases *)

Lemma calculate_beta_on_1_13 asset bench :
  calculate_beta_on scipy_1_13 asset bench = calculate_beta asset bench.
Proof. reflexivity. Qed.

Lemma no_nan_Fin xs : existsb np_isnan (map Fin xs) = false.
Proof. induction xs as [|x xs IH]; [reflexivity | exact IH]. Qed.

Lemma variance_pos_length xs : 0 < variance xs -> (2 <= length xs)%nat.
Proof.
  intros V. destruct xs as [|x [|y xs]]; [| |simpl; lia].
  - unfold variance, covariance in V. simpl in V. lra.
  - assert (Z : variance [x] = 0) by (apply (covariance_const_l x); repeat constructor).
    lra.
Qed.

(** On a benchmark and an asset that are not constant, SciPy 1.17
    computes what SciPy 1.13 does. *)
Lemma linregress_1_17_Fin (xs ys : list R) :
  length xs = length ys -> 0 < variance xs -> 0 < variance ys ->
  linregress_1_17 (map Fin xs) (map Fin ys) = linregress (map Fin xs) (map Fin ys).
Proof.
  intros L V W. pose proof (variance_pos_length xs V) as N.
  rewrite linregress_Fin by assumption.
  unfold linregress_1_17. rewrite !no_nan_Fin, !length_map. cbn [orb].
  rewrite <- L.
  destruct xs as [|h [|h2 t]]; [simpl in N; lia | simpl in N; lia |].
  destruct ys as [|h' t']; [discriminate|].
  cbn [length Nat.leb orb].
  destruct (np_eqb (np_amax (map Fin (h :: h2 :: t))) (np_amin (map Fin (h :: h2 :: t)))) eqn:E.
  { apply amax_eq_amin in E. exfalso.
    apply (variance_pos_not_const (h :: h2 :: t) h V). now constructor. }
  rewrite Nat.eqb_refl. cbn [negb].
  rewrite np_cov_bias_Fin by discriminate.
  rewrite covariance_length_sym by exact L.
  fold (variance (h :: h2 :: t)).
  set (vx := variance (h :: h2 :: t)) in *. set (vy := variance (h' :: t')) in *.
  set (c := covariance (h :: h2 :: t) (h' :: t')).
  rewrite (np_eqb_Fin_false vx 0), (np_eqb_Fin_false vy 0) by lra. cbn [orb].
  rewrite np_div_Fin by lra.
  assert (P : 0 < vx * vy) by (apply Rmult_lt_0_compat; lra).
  cbn [np_mul np_sqrt]. rewrite (Rcompare_gt (vx * vy) 0) by lra.
  pose proof (sqrt_lt_R0 _ P) as S.
  rewrite np_div_Fin by lra. rewrite np_clip_Fin.
  unfold correlation. fold vx vy c. now rewrite (Rcompare_gt vy 0) by lra.
Qed.

Lemma calculate_beta_on_self (release : scipy_release) (xs : list R) :
  0 < variance xs ->
  calculate_beta_on release (map Fin xs) (map Fin xs) = ret (Fin 1, Fin 1).
Proof.
  intros V. destruct release.
  - now apply calculate_beta_self.
  - unfold calculate_beta_on, linregress_on. rewrite linregress_1_17_Fin by auto.
    now apply calculate_beta_self.
Qed.

Lemma Rabs_bound (a B : R) : Rabs a <= B -> - B <= a <= B.
Proof. unfold Rabs. destruct (Rcase_abs a); lra. Qed.

Lemma Rsum_le_const (c : R) l :
  Forall (fun a => a <= c) l -> Rsum l <= INR (length l) * c.
Proof.
  induction 1 as [|a l Ha _ IH]; [simpl; lra|].
  change (Rsum (a :: l)) with (a + Rsum l).
  change (length (a :: l)) with (S (length l)). rewrite S_INR. lra.
Qed.

Lemma Rmean_bounded (B : R) l :
  l <> [] -> Forall (fun x => Rabs x <= B) l -> Rabs (Rmean l) <= B.
Proof.
  intros N F. pose proof (INR_length_pos l N) as P.
  assert (U : Rsum l <= INR (length l) * B).
  { apply Rsum_le_const. eapply Forall_impl; [|exact F]. cbn beta.
    intros a Ha. apply Rabs_bound in Ha. lra. }
  assert (D : - Rsum l <= INR (length l) * B).
  { rewrite <- Rsum_opp. rewrite <- (length_map Ropp l). apply Rsum_le_const.
    apply Forall_map. eapply Forall_impl; [|exact F]. cbn beta.
    intros a Ha. apply Rabs_bound in Ha. lra. }
  unfold Rmean. apply Rabs_le. split.
  - apply (Rmult_le_reg_r (INR (length l))); [exact P|].
    unfold Rdiv. rewrite Rmult_assoc, Rinv_l by lra. lra.
  - apply (Rmult_le_reg_r (INR (length l))); [exact P|].
    unfold Rdiv. rewrite Rmult_assoc, Rinv_l by lra. lra.
Qed.

(** The variance of observations of magnitude at most [B] is at most
    [4 B^2]. *)
Lemma variance_bounded (B : R) xs :
  xs <> [] -> Forall (fun x => Rabs x <= B) xs -> variance xs <= 4 * (B * B).
Proof.
  intros N F. pose proof (INR_length_pos xs N) as P.
  pose proof (Rmean_bounded B xs N F) as M.
  unfold variance, covariance. rewrite map2_diag. unfold deviations.
  rewrite map_map.
  assert (U : Rsum (map (fun x => (x + - Rmean xs) * (x + - Rmean xs)) xs)
              <= INR (length xs) * (4 * (B * B))).
  { rewrite <- (length_map (fun x => (x + - Rmean xs) * (x + - Rmean xs)) xs).
    apply Rsum_le_const, Forall_map. eapply Forall_impl; [|exact F]. cbn beta.
    intros a Ha. apply Rabs_bound in Ha. apply Rabs_bound in M. nra. }
  apply (Rmult_le_reg_r (INR (length xs))); [exact P|].
  unfold Rdiv. rewrite Rmult_1_l, Rmult_assoc, Rinv_l by lra. lra.
Qed.

(** C7, within the range of binary64: a return series of at least two
    observations, none above [2^100] in magnitude, with a variance of at
    least [2^-200], regressed against itself, has beta 1 and R squared 1,
    under either SciPy release.  The bounds are what binary64 needs: the
    variance [v], of which the beta is [v / v] and the correlation
    [v / sqrt (v * v)], lies between [2^-200] and [2^202], so that neither
    [v] nor [v * v] underflows or overflows, and both quotients are 1
    exactly in binary64 for such a [v]. *)
Theorem C7_beta_against_itself (release : scipy_release) (xs : list R) :
  (2 <= length xs)%nat ->
  Forall (fun x => Rabs x <= 2 ^ 100) xs -> / 2 ^ 200 <= variance xs ->
  calculate_beta_on release (map Fin xs) (map Fin xs) = ret (Fin 1, Fin 1)
  /\ / 2 ^ 200 <= variance xs <= 2 ^ 202.
Proof.
  intros L B V. split; [|split; [exact V|]].
  - apply calculate_beta_on_self.
    assert (0 < / 2 ^ 200) by (apply Rinv_0_lt_compat, pow_lt; lra). lra.
  - replace (2 ^ 202) with (4 * (2 ^ 100 * 2 ^ 100))
      by (replace 202%nat with (2 + (100 + 100))%nat by lia; rewrite !pow_add; ring).
    apply variance_bounded; [|exact B]. intros ->. simpl in L. lia.
Qed.

Lemma linregress_1_17_small (x y : list npfloat) :
  (length x <= 1)%nat -> linregress_1_17 x y = ret nan_regression.
Proof.
  intros L. unfold linregress_1_17.
  destruct (orb (existsb np_isnan x) (existsb np_isnan y)); [reflexivity|].
  apply Nat.leb_le in L. now rewrite L.
Qed.

Lemma linregress_1_17_constant (xs ys : list R) :
  (2 <= length xs)%nat -> length xs = length ys -> variance xs = 0 ->
  linregress_1_17 (map Fin xs) (map Fin ys) = raise (ValueError identical_msg).
Proof.
  intros N L V. apply variance_zero_const in V.
  unfold linregress_1_17. rewrite !no_nan_Fin, !length_map, <- L. cbn [orb].
  destruct xs as [|h [|h2 t]]; [simpl in N; lia | simpl in N; lia |].
  cbn [length Nat.leb orb].
  assert (E : np_eqb (np_amax (map Fin (h :: h2 :: t))) (np_amin (map Fin (h :: h2 :: t)))
              = true).
  { apply amax_eq_amin. inversion V as [|? ? Hh Ht]; subst.
    eapply Forall_impl; [|exact Ht]. simpl. intros a Ha. congruence. }
  now rewrite E.
Qed.

(** C4, as the code has it.  On sequences of one length the estimation
    raises when the benchmark has at least two observations and zero
    variance, under either SciPy release.  With no observation it raises
    under SciPy 1.13 and returns a [nan] beta and a [nan] R squared under
    SciPy 1.17.  On a single paired observation it raises nothing: the
    beta is [nan], and R squared is 0 under SciPy 1.13 and [nan] under
    SciPy 1.17. *)
Theorem C4_degenerate_regression (xs ys : list R) :
  length xs = length ys ->
  (forall release, (2 <= length xs)%nat -> variance xs = 0 ->
     calculate_beta_on release (map Fin ys) (map Fin xs)
     = raise (ValueError identical_msg))
  /\ (length xs = 0%nat ->
      calculate_beta_on scipy_1_13 (map Fin ys) (map Fin xs)
      = raise (ValueError empty_msg)
      /\ calculate_beta_on scipy_1_17 (map Fin ys) (map Fin xs) = ret (NaN, NaN))
  /\ (length xs = 1%nat ->
      calculate_beta_on scipy_1_13 (map Fin ys) (map Fin xs) = ret (NaN, Fin 0)
      /\ calculate_beta_on scipy_1_17 (map Fin ys) (map Fin xs) = ret (NaN, NaN)).
Proof.
  intros L. split; [|split].
  - intros release N V. unfold calculate_beta_on. destruct release; cbn [linregress_on].
    + rewrite linregress_constant; auto. intros ->. simpl in L. lia.
    + now rewrite linregress_1_17_constant.
  - intros N. destruct xs; [|discriminate]. split.
    + unfold calculate_beta_on. cbn [linregress_on map]. now rewrite linregress_empty.
    + unfold calculate_beta_on. cbn [linregress_on].
      rewrite linregress_1_17_small by (simpl; lia). reflexivity.
  - intros N. destruct xs as [|x [|? ?]]; try discriminate.
    destruct ys as [|y [|? ?]]; try discriminate. split.
    + unfold calculate_beta_on. cbn [linregress_on map]. rewrite linregress_single.
      cbn [bind ret slope rvalue np_mul]. now replace (0 * 0) with 0 by lra.
    + unfold calculate_beta_on. cbn [linregress_on].
      rewrite linregress_1_17_small by (simpl; lia). reflexivity.
Qed.

Lemma variance_pair (x y : R) : variance [x; y] = (x - y) * (x - y) / 4.
Proof. unfold variance, covariance, deviations, Rmean. simpl. field. Qed.

Lemma variance_0_1_large : / 2 ^ 200 <= variance [0; 1].
Proof.
  assert (E : variance [0; 1] = / 2 ^ 2).
  { unfold variance, covariance, deviations, Rmean. simpl. field. }
  rewrite E. apply Rinv_le_contravar; [apply pow2_pos | apply pow2_le; lia].
Qed.

Lemma bounded_0_1 : Forall (fun x => Rabs x <= 2 ^ 100) [0; 1].
Proof.
  pose proof (pow2_pos 100). assert (1 <= 2 ^ 100) by (apply pow_R1_Rle; lra).
  repeat constructor; [rewrite Rabs_R0 | rewrite Rabs_R1]; lra.
Qed.

Lemma C7_witness :
  (calculate_beta_on scipy_1_13 (map Fin [0; 1]) (map Fin [0; 1]) = ret (Fin 1, Fin 1)
   /\ / 2 ^ 200 <= variance [0; 1] <= 2 ^ 202)
  /\ (calculate_beta_on scipy_1_17 (map Fin [0; 1]) (map Fin [0; 1]) = ret (Fin 1, Fin 1)
      /\ / 2 ^ 200 <= variance [0; 1] <= 2 ^ 202).
Proof.
  split.
  - apply (C7_beta_against_itself scipy_1_13 [0; 1]);
      [simpl; lia | exact bounded_0_1 | exact variance_0_1_large].
  - apply (C7_beta_against_itself scipy_1_17 [0; 1]);
      [simpl; lia | exact bounded_0_1 | exact variance_0_1_large].
Defined.

(** C7 fails in binary64 on the series [2^-600], [2^-599]: its variance is
    positive, but the squares of the deviations underflow to zero, and
    the beta is [nan] under either SciPy release. *)
Lemma C7_counterexample :
  0 < variance [/ 2 ^ 600; / 2 ^ 599]
  /\ calculate_beta64 scipy_1_13 [0x1p-600; 0x1p-599]%float [0x1p-600; 0x1p-599]%float
     = ret (PrimFloat.nan, 0%float)
  /\ calculate_beta64 scipy_1_17 [0x1p-600; 0x1p-599]%float [0x1p-600; 0x1p-599]%float
     = ret (PrimFloat.nan, PrimFloat.nan).
Proof.
  split.
  - rewrite variance_pair. change (2 ^ 600) with (2 * 2 ^ 599).
    rewrite Rinv_mult. set (a := / 2 ^ 599).
    assert (0 < a) by (apply Rinv_0_lt_compat, pow2_pos). nra.
  - split; vm_compute; reflexivity.
Qed.

(** Inside the range of C7 the binary64 regression gives 1 and 1 exactly:
    on the series 1, 2, 4, on a series at the upper bound and on one at
    the lower bound of the range. *)
Example self_regression64 :
  calculate_beta64 scipy_1_13 [1; 2; 4]%float [1; 2; 4]%float = ret (1, 1)%float
  /\ calculate_beta64 scipy_1_17 [1; 2; 4]%float [1; 2; 4]%float = ret (1, 1)%float
  /\ calculate_beta64 scipy_1_17 [0; 0x1p100]%float [0; 0x1p100]%float = ret (1, 1)%float
  /\ calculate_beta64 scipy_1_17 [0; 0x1p-99]%float [0; 0x1p-99]%float = ret (1, 1)%float.
Proof. repeat split; vm_compute; reflexivity. Qed.

Lemma C4_witness :
  (calculate_beta_on scipy_1_13 (map Fin [1; 2]) (map Fin [1; 1])
   = raise (ValueError identical_msg)
   /\ calculate_beta_on scipy_1_17 (map Fin [1; 2]) (map Fin [1; 1])
      = raise (ValueError identical_msg))
  /\ calculate_beta_on scipy_1_13 (map Fin [2]) (map Fin [1]) = ret (NaN, Fin 0)
  /\ calculate_beta_on scipy_1_17 (map Fin [2]) (map Fin [1]) = ret (NaN, NaN).
Proof.
  split.
  - split; apply (proj1 (C4_degenerate_regression [1; 1] [1; 2] eq_refl));
      [simpl; lia | apply variance_1_1 | simpl; lia | apply variance_1_1].
  - apply (proj2 (proj2 (C4_degenerate_regression [1] [2] eq_refl))). reflexivity.
Defined.

(** C4 fails on a single paired observation: nothing is raised under
    either SciPy release; and under SciPy 1.17 nothing is raised on no
    observation either. *)
Lemma C4_counterexample :
  length [Fin 2] = length [Fin 1] /\ (length [Fin 1] < 2)%nat
  /\ calculate_beta_on scipy_1_13 [Fin 2] [Fin 1] = ret (NaN, Fin 0)
  /\ calculate_beta_on scipy_1_17 [Fin 2] [Fin 1] = ret (NaN, NaN)
  /\ ~ raised (calculate_beta_on scipy_1_13 [Fin 2] [Fin 1])
  /\ ~ raised (calculate_beta_on scipy_1_17 [Fin 2] [Fin 1])
  /\ calculate_beta_on scipy_1_17 [] [] = ret (NaN, NaN).
Proof.
  assert (E : calculate_beta_on scipy_1_13 [Fin 2] [Fin 1] = ret (NaN, Fin 0)).
  { unfold calculate_beta_on. cbn [linregress_on]. rewrite linregress_single.
    cbn [bind ret slope rvalue np_mul]. now replace (0 * 0) with 0 by lra. }
  assert (E' : calculate_beta_on scipy_1_17 [Fin 2] [Fin 1] = ret (NaN, NaN))
    by reflexivity.
  split; [reflexivity|]. split; [simpl; lia|]. split; [exact E|]. split; [exact E'|].
  split; [|split; [|reflexivity]].
  - intros [e H]. rewrite E in H. discriminate.
  - intros [e H]. rewrite E' in H. discriminate.
Qed.

(** ** The range of R squared *)

Lemma np_clip_range r :
  let c := if np_gtb r (Fin 1) then Fin 1
           else if np_ltb r (Fin (-1)) then Fin (-1) else r in
  c = NaN \/ exists x, c = Fin x /\ -1 <= x <= 1.
Proof.
  destruct r as [x| | |]; cbn [np_gtb np_ltb].
  - destruct (Rcompare_spec 1 x); destruct (Rcompare_spec x (-1));
      first [right; eexists; split; [reflexivity | lra] | exfalso; lra].
  - right. exists 1. split; [reflexivity | lra].
  - right. exists (-1). split; [reflexivity | lra].
  - now left.
Qed.

Lemma r_squared_of_clipped r :
  r = NaN \/ (exists x, r = Fin x /\ -1 <= x <= 1) ->
  np_mul r r = NaN \/ exists x, np_mul r r = Fin x /\ 0 <= x <= 1.
Proof.
  intros [->|(x & -> & B)]; [now left|]. right. exists (x * x).
  split; [reflexivity | nra].
Qed.

Lemma linregress_on_rvalue release x y reg :
  linregress_on release x y = ret reg ->
  rvalue reg = NaN \/ exists r, rvalue reg = Fin r /\ -1 <= r <= 1.
Proof.
  assert (Z : Fin 0 = NaN \/ exists r, Fin 0 = Fin r /\ -1 <= r <= 1)
    by (right; exists 0; split; [reflexivity | lra]).
  destruct release; cbn [linregress_on].
  - unfold linregress.
    destruct (orb _ _); [discriminate|]. destruct (andb _ _); [discriminate|].
    destruct (negb _); [discriminate|].
    destruct (np_cov_bias x y) as [[[ssxm ssxym] ?] ssym].
    intros H. injection H as <-. cbn [rvalue].
    destruct (orb _ _); [exact Z | apply np_clip_range].
  - unfold linregress_1_17.
    destruct (orb _ _); [intros H; injection H as <-; now left|].
    destruct (orb _ _); [intros H; injection H as <-; now left|].
    destruct (np_eqb _ _); [discriminate|].
    destruct (negb _); [discriminate|].
    destruct (np_cov_bias x y) as [[[ssxm ssxym] ?] ssym].
    intros H. injection H as <-. cbn [rvalue].
    destruct (orb _ _); [|apply np_clip_range].
    destruct (np_eqb ssxym (Fin 0)); [now left | exact Z].
Qed.

(** X9: whatever the input and the SciPy release, an R squared that
    [calculate_beta] returns is [nan] or a number between 0 and 1. *)
Theorem r_squared_range (release : scipy_release) (asset bench : list npfloat)
    (beta r_squared : npfloat) :
  calculate_beta_on release asset bench = ret (beta, r_squared) ->
  r_squared = NaN \/ exists x, r_squared = Fin x /\ 0 <= x <= 1.
Proof.
  unfold calculate_beta_on. intros H.
  destruct (linregress_on release bench asset) as [e|reg] eqn:E; [discriminate|].
  cbn [bind ret] in H. injection H as _ <-.
  apply r_squared_of_clipped. eapply linregress_on_rvalue. exact E.
Qed.

Lemma r_squared_range_witness :
  Fin 1 = NaN \/ exists x, Fin 1 = Fin x /\ 0 <= x <= 1.
Proof.
  apply (r_squared_range scipy_1_17 (map Fin [0; 1]) (map Fin [0; 1]) (Fin 1) (Fin 1)).
  apply calculate_beta_on_self, variance_0_1.
Defined.

(** * Data retrieval *)

Lemma dict_get_mem {V} (k : string) (d : dict V) :
  mem k (dict_keys d) = true -> exists v, dict_get k d = ret v.
Proof.
  unfold mem. induction d as [|[k' v] d IH]; simpl; [discriminate|].
  destruct (String.eqb k k'); simpl; eauto.
Qed.

Lemma iloc_last_not_value_error (df : DataFrame) (msg : string) :
  iloc_last df <> raise (ValueError msg).
Proof. unfold iloc_last. destruct (rows df); discriminate. Qed.

Section Retrieval.

Variable yf_download : list string -> option (string * string) -> Payload.

Lemma get_historical_data_cases tickers s e :
  let data := yf_download (tickers ++ ["SPY"%string]) (Some (s, e)) in
  (has_field "Adj Close" data = true ->
   exists df, dict_get "Adj Close" data = ret df
              /\ get_historical_data yf_download tickers s e = ret (dropna df))
  /\ (has_field "Adj Close" data = false -> has_field "Close" data = true ->
      exists df, dict_get "Close" data = ret df
                 /\ get_historical_data yf_download tickers s e = ret (dropna df))
  /\ (has_field "Adj Close" data = false -> has_field "Close" data = false ->
      get_historical_data yf_download tickers s e = raise (ValueError neither_msg))
  /\ (raised (get_historical_data yf_download tickers s e) ->
      has_field "Adj Close" data = false /\ has_field "Close" data = false).
Proof.
  intros data. unfold get_historical_data. fold data.
  destruct (has_field "Adj Close" data) eqn:A.
  - destruct (dict_get_mem _ _ A) as [df D]. rewrite D. cbn [bind].
    split; [eauto | split; [discriminate | split; [discriminate|]]].
    intros [x Hx]. discriminate.
  - destruct (has_field "Close" data) eqn:C.
    + destruct (dict_get_mem _ _ C) as [df D]. rewrite D. cbn [bind].
      split; [discriminate | split; [eauto | split; [discriminate|]]].
      intros [x Hx]. discriminate.
    + split; [discriminate | split; [discriminate | split; auto]].
Qed.

Lemma fetch_current_prices_cases portfolio :
  let data := yf_download (dict_keys portfolio) None in
  (has_field "Adj Close" data = true ->
   exists df, dict_get "Adj Close" data = ret df
              /\ fetch_current_prices yf_download portfolio = iloc_last df)
  /\ (has_field "Adj Close" data = false -> has_field "Close" data = true ->
      exists df, dict_get "Close" data = ret df
                 /\ fetch_current_prices yf_download portfolio = iloc_last df)
  /\ (fetch_current_prices yf_download portfolio = raise (ValueError neither_msg)
      <-> has_field "Adj Close" data = false /\ has_field "Close" data = false).
Proof.
  intros data. unfold fetch_current_prices. fold data.
  destruct (has_field "Adj Close" data) eqn:A.
  - destruct (dict_get_mem _ _ A) as [df D]. rewrite D. cbn [bind].
    split; [eauto | split; [discriminate | split]].
    + intros Hx. now apply iloc_last_not_value_error in Hx.
    + intros [? ?]; discriminate.
  - destruct (has_field "Close" data) eqn:C.
    + destruct (dict_get_mem _ _ C) as [df D]. rewrite D. cbn [bind].
      split; [discriminate | split; [eauto | split]].
      * intros Hx. now apply iloc_last_not_value_error in Hx.
      * intros [? ?]; discriminate.
    + split; [discriminate | split; [discriminate | split; auto]].
Qed.

End Retrieval.

(** C5: each retrieval takes the adjusted-close field when the payload has
    it and the close field otherwise, and the error for a missing price
    field is raised exactly when the payload has neither; the rebalancer
    then stops with that error. *)
Theorem C5_price_field_selection
    (yf_download : list string -> option (string * string) -> Payload)
    (portfolio : dict npfloat) (tickers : list string) (s e : string) :
  (let data := yf_download (tickers ++ ["SPY"%string]) (Some (s, e)) in
   (has_field "Adj Close" data = true ->
    exists df, dict_get "Adj Close" data = ret df
               /\ get_historical_data yf_download tickers s e = ret (dropna df))
   /\ (has_field "Adj Close" data = false -> has_field "Close" data = true ->
       exists df, dict_get "Close" data = ret df
                  /\ get_historical_data yf_download tickers s e = ret (dropna df))
   /\ (has_field "Adj Close" data = false -> has_field "Close" data = false ->
       get_historical_data yf_download tickers s e = raise (ValueError neither_msg))
   /\ (raised (get_historical_data yf_download tickers s e) ->
       has_field "Adj Close" data = false /\ has_field "Close" data = false))
  /\
  (let data := yf_download (dict_keys portfolio) None in
   (has_field "Adj Close" data = true ->
    exists df, dict_get "Adj Close" data = ret df
               /\ fetch_current_prices yf_download portfolio = iloc_last df)
   /\ (has_field "Adj Close" data = false -> has_field "Close" data = true ->
       exists df, dict_get "Close" data = ret df
                  /\ fetch_current_prices yf_download portfolio = iloc_last df)
   /\ (fetch_current_prices yf_download portfolio = raise (ValueError neither_msg)
       <-> has_field "Adj Close" data = false /\ has_field "Close" data = false)
   /\ (has_field "Adj Close" data = false -> has_field "Close" data = false ->
       forall total target,
         portfolio_beta_weighting yf_download portfolio total target
         = raise (ValueError neither_msg))).
Proof.
  split; [apply get_historical_data_cases|].
  intros data.
  destruct (fetch_current_prices_cases yf_download portfolio) as (H1 & H2 & H3).
  fold data in H1, H2, H3.
  split; [exact H1 | split; [exact H2 | split; [exact H3|]]].
  intros A C total target.
  unfold portfolio_beta_weighting, portfolio_inputs.
  now rewrite (proj2 H3 (conj A C)).
Qed.

(** * The returns calculator *)

Lemma np_div_NaN_r a : np_div a NaN = NaN.
Proof. destruct a; reflexivity. Qed.

Lemma shifted_returns r0 rest :
  map (fun r c => np_log (r c))
      (map2 (fun r s c => np_div (r c) (s c)) rest (removelast (r0 :: rest)))
  = consecutive_returns r0 rest.
Proof.
  revert r0. induction rest as [|r1 rest IH]; intros r0; [reflexivity|].
  change (removelast (r0 :: r1 :: rest)) with (r0 :: removelast (r1 :: rest)).
  cbn [map2 map consecutive_returns]. now rewrite IH.
Qed.

Lemma calculate_returns_rows cols r0 rest :
  calculate_returns (mkDataFrame cols (r0 :: rest))
  = ret (mkDataFrame cols
           (filter (row_notna cols)
              ((fun c => np_log (np_div (r0 c) NaN)) :: consecutive_returns r0 rest))).
Proof.
  unfold calculate_returns, dropna, df_log, df_div, shift1.
  cbn [rows columns map2 map]. now rewrite shifted_returns.
Qed.

Lemma first_row_dropped cols (r0 : string -> npfloat) :
  cols <> [] -> row_notna cols (fun c => np_log (np_div (r0 c) NaN)) = false.
Proof.
  destruct cols as [|c cols]; [congruence|]. intros _.
  unfold row_notna. cbn [forallb]. now rewrite np_div_NaN_r.
Qed.

Lemma filter_all {A} (f : A -> bool) l :
  Forall (fun a => f a = true) l -> filter f l = l.
Proof.
  induction 1 as [|a l Ha _ IH]; simpl; [reflexivity|]. now rewrite Ha, IH.
Qed.

Lemma log_ratio_positive prev cur c :
  positive (prev c) -> positive (cur c) ->
  exists p q, prev c = Fin p /\ cur c = Fin q /\ 0 < p /\ 0 < q
              /\ log_ratio prev cur c = Fin (ln (q / p)).
Proof.
  intros (p & Hp & Pp) (q & Hq & Pq). exists p, q. unfold log_ratio.
  rewrite Hp, Hq. repeat split; auto.
  rewrite np_div_Fin by lra. unfold np_log.
  assert (0 < q / p) by (apply Rdiv_lt_0_compat; assumption).
  now rewrite Rcompare_gt by assumption.
Qed.

Lemma consecutive_returns_length r0 rest :
  length (consecutive_returns r0 rest) = length rest.
Proof. revert r0. induction rest; intros; simpl; auto. Qed.

Lemma consecutive_returns_nth r0 rest t d :
  (t < length rest)%nat ->
  nth t (consecutive_returns r0 rest) d
  = log_ratio (nth t (r0 :: rest) d) (nth (S t) (r0 :: rest) d).
Proof.
  revert r0 t. induction rest as [|r1 rest IH]; intros r0 t L; [simpl in L; lia|].
  destruct t as [|t]; [reflexivity|].
  cbn [consecutive_returns]. change (nth (S t) (?a :: ?l) d) with (nth t l d).
  rewrite IH by (simpl in L; lia). reflexivity.
Qed.

Lemma consecutive_returns_notna cols r0 rest :
  Forall (fun r => forall c, In c cols -> positive (r c)) (r0 :: rest) ->
  Forall (fun r => row_notna cols r = true) (consecutive_returns r0 rest).
Proof.
  revert r0. induction rest as [|r1 rest IH]; intros r0 H; [constructor|].
  inversion H as [|? ? H0 H']; subst. inversion H' as [|? ? H1 _]; subst.
  cbn [consecutive_returns]. constructor; [|now apply IH].
  unfold row_notna. apply forallb_forall. intros c Hc.
  destruct (log_ratio_positive r0 r1 c (H0 c Hc) (H1 c Hc)) as (p & q & _ & _ & _ & _ & E).
  now rewrite E.
Qed.

(** On a table of positive prices with at least one column, the returns
    are the log ratios of consecutive rows. *)
Lemma calculate_returns_positive cols r0 rest :
  cols <> [] ->
  Forall (fun r => forall c, In c cols -> positive (r c)) (r0 :: rest) ->
  calculate_returns (mkDataFrame cols (r0 :: rest))
  = ret (mkDataFrame cols (consecutive_returns r0 rest)).
Proof.
  intros C P. rewrite calculate_returns_rows. cbn [filter].
  rewrite first_row_dropped by assumption.
  now rewrite filter_all by (apply consecutive_returns_notna; assumption).
Qed.

Lemma calculate_returns_no_raise (df : DataFrame) : ~ raised (calculate_returns df).
Proof. intros [e H]. discriminate. Qed.

(** C3, as the code has it: [calculate_returns] raises on no table; on a
    table of fewer than two rows, with at least one column, it returns the
    empty return series. *)
Theorem C3_short_table (df : DataFrame) :
  ~ raised (calculate_returns df)
  /\ ((length (rows df) < 2)%nat -> columns df <> [] ->
      calculate_returns df = ret (mkDataFrame (columns df) [])).
Proof.
  split; [apply calculate_returns_no_raise|].
  intros L C. destruct df as [cols [|r0 [|r1 rest]]]; cbn [rows columns] in *.
  - reflexivity.
  - rewrite calculate_returns_rows. cbn [consecutive_returns filter].
    now rewrite first_row_dropped.
  - simpl in L. lia.
Qed.

Lemma C3_witness : calculate_returns one_row = ret (mkDataFrame ["A"%string] []).
Proof.
  apply (proj2 (C3_short_table one_row)); [simpl; lia | discriminate].
Defined.

(** C3 fails on a table of one row: the empty series is returned. *)
Lemma C3_counterexample :
  (length (rows one_row) < 2)%nat
  /\ calculate_returns one_row = ret (mkDataFrame ["A"%string] [])
  /\ ~ raised (calculate_returns one_row).
Proof.
  split; [simpl; lia|]. split; [reflexivity | apply calculate_returns_no_raise].
Qed.

(** On a table of positive prices with at least one column and [n >= 2]
    rows, the result has [n - 1] rows, the first row being dropped, and the
    entry of row [t] under a ticker is [ln (price[t+1] / price[t])]. *)
Lemma returns_of_positive_prices (df : DataFrame) :
  columns df <> [] ->
  Forall (fun r => forall c, In c (columns df) -> positive (r c)) (rows df) ->
  (2 <= length (rows df))%nat ->
  exists out,
    calculate_returns df = ret out
    /\ columns out = columns df
    /\ length (rows out) = (length (rows df) - 1)%nat
    /\ forall t c, (t < length (rows df) - 1)%nat -> In c (columns df) ->
         exists p q,
           nth t (rows df) nan_row c = Fin p
           /\ nth (S t) (rows df) nan_row c = Fin q
           /\ 0 < p /\ 0 < q
           /\ nth t (rows out) nan_row c = Fin (ln (q / p)).
Proof.
  intros C P L. destruct df as [cols [|r0 rest]]; cbn [rows columns] in *.
  { simpl in L. lia. }
  eexists. split; [apply calculate_returns_positive; assumption|].
  cbn [rows columns]. split; [reflexivity|].
  split; [rewrite consecutive_returns_length; simpl; lia|].
  intros t c Ht Hc. simpl in Ht.
  rewrite consecutive_returns_nth by lia.
  assert (Hin : forall i, (i < length (r0 :: rest))%nat ->
                          positive (nth i (r0 :: rest) nan_row c)).
  { intros i Hi. rewrite Forall_forall in P. apply P; [apply nth_In; exact Hi | exact Hc]. }
  destruct (log_ratio_positive (nth t (r0 :: rest) nan_row)
              (nth (S t) (r0 :: rest) nan_row) c) as (p & q & E1 & E2 & Pp & Pq & E).
  - apply Hin. simpl. lia.
  - apply Hin. simpl. lia.
  - exists p, q. auto.
Qed.

Lemma price_in_range_positive a : price_in_range a -> positive a.
Proof.
  intros (x & -> & L & _). exists x. split; [reflexivity|].
  assert (0 < / 2 ^ 500) by (apply Rinv_0_lt_compat, pow2_pos). lra.
Qed.

Lemma price_in_range_magnitude x :
  price_in_range (Fin x) -> 0 < x /\ magnitude 500 x.
Proof.
  intros (y & E & L & U). injection E as <-.
  assert (P : 0 < / 2 ^ 500) by (apply Rinv_0_lt_compat, pow2_pos).
  split; [lra|]. unfold magnitude. rewrite Rabs_right by lra. lra.
Qed.

(** C6, as the code has it: on a price table with at least one ticker
    column, [n >= 2] rows and prices between [2^-500] and [2^500], the
    result has [n - 1] rows, the first row being dropped; the quotient of
    two consecutive prices lies between [2^-1000] and [2^1000], inside the
    range of binary64, and the entry of row [t] under a ticker is the
    finite number [ln (price[t+1] / price[t])]. *)
Theorem C6_log_returns (df : DataFrame) :
  columns df <> [] ->
  Forall (fun r => forall c, In c (columns df) -> price_in_range (r c)) (rows df) ->
  (2 <= length (rows df))%nat ->
  exists out,
    calculate_returns df = ret out
    /\ columns out = columns df
    /\ length (rows out) = (length (rows df) - 1)%nat
    /\ forall t c, (t < length (rows df) - 1)%nat -> In c (columns df) ->
         exists p q,
           nth t (rows df) nan_row c = Fin p
           /\ nth (S t) (rows df) nan_row c = Fin q
           /\ 0 < p /\ 0 < q
           /\ / 2 ^ 1000 <= q / p <= 2 ^ 1000
           /\ nth t (rows out) nan_row c = Fin (ln (q / p)).
Proof.
  intros C P L.
  assert (P' : Forall (fun r => forall c, In c (columns df) -> positive (r c)) (rows df)).
  { eapply Forall_impl; [|exact P]. cbn beta. intros r H c Hc.
    now apply price_in_range_positive, H. }
  destruct (returns_of_positive_prices df C P' L) as (out & E & Ec & El & En).
  exists out. repeat (split; [assumption|]).
  intros t c Ht Hc. destruct (En t c Ht Hc) as (p & q & Ep & Eq & Pp & Pq & Eo).
  exists p, q. repeat (split; [assumption|]). split; [|exact Eo].
  assert (R : forall i, (i < length (rows df))%nat ->
                        price_in_range (nth i (rows df) nan_row c)).
  { intros i Hi. rewrite Forall_forall in P. apply P; [now apply nth_In | exact Hc]. }
  pose proof (R t ltac:(lia)) as Rp. pose proof (R (S t) ltac:(lia)) as Rq.
  rewrite Ep in Rp. rewrite Eq in Rq.
  apply price_in_range_magnitude in Rp as [_ Mp].
  apply price_in_range_magnitude in Rq as [_ Mq].
  pose proof (magnitude_div 500 500 q p Mq Mp) as M.
  unfold magnitude in M. rewrite Rabs_right in M.
  - exact M.
  - apply Rle_ge, Rlt_le. now apply Rdiv_lt_0_compat.
Qed.

Lemma price_in_range_small x : 1 <= x <= 2 -> price_in_range (Fin x).
Proof.
  intros [L U]. exists x. split; [reflexivity|].
  pose proof (pow2_le 1 500 ltac:(lia)) as B. rewrite pow_1 in B.
  split; [|lra].
  apply Rle_trans with (/ 1); [|rewrite Rinv_1; lra].
  apply Rinv_le_contravar; lra.
Qed.

Lemma C6_witness :
  exists out,
    calculate_returns two_rows = ret out
    /\ columns out = ["A"%string]
    /\ length (rows out) = 1%nat
    /\ forall t c, (t < 1)%nat -> In c ["A"%string] ->
         exists p q,
           nth t (rows two_rows) nan_row c = Fin p
           /\ nth (S t) (rows two_rows) nan_row c = Fin q
           /\ 0 < p /\ 0 < q
           /\ / 2 ^ 1000 <= q / p <= 2 ^ 1000
           /\ nth t (rows out) nan_row c = Fin (ln (q / p)).
Proof.
  apply (C6_log_returns two_rows).
  - discriminate.
  - repeat constructor; intros c _; apply price_in_range_small; lra.
  - simpl. lia.
Defined.

(** In a table without columns no row holds a [nan], so none is
    dropped. *)
Lemma no_columns_keeps_rows :
  Forall (fun r => forall c, positive (r c)) (rows no_columns)
  /\ length (rows no_columns) = 2%nat
  /\ exists out, calculate_returns no_columns = ret out
                 /\ length (rows out) = 2%nat.
Proof.
  split.
  { repeat constructor; intros c; exists 1; (split; [reflexivity | lra]). }
  split; [reflexivity|]. eexists. split; reflexivity.
Qed.

(** C6 fails on a table of two rows without columns, which keeps its two
    rows; and in binary64 the price [2^600] after the price [2^-600] gives
    an infinite quotient, whose logarithm is infinite. *)
Lemma C6_counterexample :
  (Forall (fun r => forall c, positive (r c)) (rows no_columns)
   /\ length (rows no_columns) = 2%nat
   /\ exists out, calculate_returns no_columns = ret out
                  /\ length (rows out) = 2%nat)
  /\ (0x1p600 / 0x1p-600)%float = infinity
  /\ np_log PInf = PInf.
Proof.
  split; [exact no_columns_keeps_rows|]. split; reflexivity.
Qed.

(** * Dictionaries built in a loop *)

Lemma dict_set_keys {V} (k : string) (v : V) (d : dict V) :
  dict_keys (dict_set k v d) = add_key (dict_keys d) k.
Proof.
  unfold add_key, mem. induction d as [|[k' v'] d IH]; [reflexivity|].
  cbn [dict_set dict_keys map fst existsb].
  destruct (String.eqb k k') eqn:E; cbn [orb map fst].
  - apply String.eqb_eq in E. now subst.
  - unfold dict_keys in IH. rewrite IH. now destruct (existsb (String.eqb k) (map fst d)).
Qed.

Lemma mem_In (k : string) (l : list string) : mem k l = true <-> In k l.
Proof.
  unfold mem. rewrite existsb_exists. split.
  - intros (x & Hx & E). apply String.eqb_eq in E. now subst.
  - intros H. exists k. split; [exact H | apply String.eqb_refl].
Qed.

Lemma add_key_In ks k x : In x (add_key ks k) <-> In x ks \/ x = k.
Proof.
  unfold add_key. destruct (mem k ks) eqn:E.
  - apply mem_In in E. split; [auto | intros [H| ->]; auto].
  - rewrite in_app_iff. simpl. intuition.
Qed.

Lemma fold_add_key_In ks acc x :
  In x (fold_left add_key ks acc) <-> In x acc \/ In x ks.
Proof.
  revert acc. induction ks as [|k ks IH]; intros acc; simpl; [intuition|].
  rewrite IH, add_key_In. intuition.
Qed.

Section Build.

Context {A V : Type} (key : A -> string) (g : A -> result V).

Lemma foldM_build_keys l acc d :
  foldM (build_step key g) l acc = ret d ->
  dict_keys d = fold_left add_key (map key l) (dict_keys acc)
  /\ Forall (fun x => exists v, g x = ret v) l.
Proof.
  revert acc. induction l as [|x l IH]; intros acc H.
  - injection H as <-. split; [reflexivity | constructor].
  - cbn [foldM] in H. unfold build_step at 1 in H. destruct (g x) as [e|v] eqn:G;
      [discriminate|]. cbn [bind ret] in H.
    destruct (IH _ H) as [K F]. split.
    + rewrite K, dict_set_keys. reflexivity.
    + constructor; eauto.
Qed.

Lemma dict_build_keys l d :
  dict_build key g l = ret d ->
  dict_keys d = fold_left add_key (map key l) []
  /\ Forall (fun x => exists v, g x = ret v) l.
Proof. apply foldM_build_keys. Qed.

Lemma dict_set_fresh k (v : V) acc :
  ~ In k (dict_keys acc) -> dict_set k v acc = acc ++ [(k, v)].
Proof.
  induction acc as [|[k' v'] acc IH]; intros N; [reflexivity|].
  cbn [dict_set]. destruct (String.eqb k k') eqn:E.
  - apply String.eqb_eq in E. subst. exfalso. apply N. now left.
  - rewrite IH; [reflexivity|]. intros H. apply N. now right.
Qed.

(** With distinct keys the dictionary lists the values in order. *)
Lemma foldM_build_nodup l acc d :
  NoDup (dict_keys acc ++ map key l) ->
  foldM (build_step key g) l acc = ret d ->
  exists vs, mapM g l = ret vs /\ d = acc ++ combine (map key l) vs.
Proof.
  revert acc. induction l as [|x l IH]; intros acc N H.
  - injection H as <-. exists []. split; [reflexivity | now rewrite app_nil_r].
  - cbn [foldM] in H. unfold build_step at 1 in H. destruct (g x) as [e|v] eqn:G;
      [discriminate|]. cbn [bind ret] in H.
    cbn [map] in N.
    assert (Fr : ~ In (key x) (dict_keys acc)).
    { apply NoDup_remove_2 in N. intros I. apply N. apply in_or_app. now left. }
    rewrite dict_set_fresh in H by exact Fr.
    destruct (IH (acc ++ [(key x, v)])) as (vs & M & D).
    + unfold dict_keys. rewrite map_app. cbn [map fst].
      rewrite <- app_assoc. exact N.
    + exact H.
    + exists (v :: vs). cbn [mapM]. rewrite G, M. cbn [bind ret].
      split; [reflexivity|]. rewrite D, <- app_assoc. reflexivity.
Qed.

Lemma dict_build_nodup l d :
  NoDup (map key l) -> dict_build key g l = ret d ->
  exists vs, mapM g l = ret vs /\ d = combine (map key l) vs.
Proof. intros N H. now apply (foldM_build_nodup l [] d). Qed.

End Build.

Lemma mapM_success {A B} (f : A -> result B) l :
  Forall (fun a => exists b, f a = ret b) l ->
  exists bs, mapM f l = ret bs /\ length bs = length l.
Proof.
  induction 1 as [|a l [b Hb] _ (bs & IH & L)].
  - exists []. split; reflexivity.
  - exists (b :: bs). cbn [mapM]. rewrite Hb, IH. split; [reflexivity | simpl; congruence].
Qed.

Lemma mapM_length {A B} (f : A -> result B) l bs :
  mapM f l = ret bs -> length bs = length l.
Proof.
  revert bs. induction l as [|a l IH]; intros bs H.
  - injection H as <-. reflexivity.
  - cbn [mapM] in H. destruct (f a); [discriminate|]. cbn [bind] in H.
    destruct (mapM f l); [discriminate|]. injection H as <-.
    simpl. f_equal. now apply IH.
Qed.

(** * The rebalancer, stage by stage *)

(** Split a hypothesis [x <- c ;; k = ret r] on the outcome of [c]. *)
Ltac bind_inv H :=
  match type of H with
  | bind ?c _ = _ =>
      let E := fresh "E" in
      destruct c eqn:E; [discriminate H|]; cbn [bind] in H
  end.

Section Rebalancer.

Variable yf_download : list string -> option (string * string) -> Payload.

Lemma inputs_shapes portfolio inp :
  portfolio_inputs yf_download portfolio = ret inp ->
  dict_keys (positions inp) = dict_keys (betas inp)
  /\ Forall (fun k => exists p, series_get (current_prices inp) k = ret p)
            (dict_keys portfolio)
  /\ Forall (fun k => exists b, dict_get k (betas inp) = ret b)
            (dict_keys portfolio).
Proof.
  unfold portfolio_inputs. intros H.
  bind_inv H. bind_inv H. bind_inv H. bind_inv H. bind_inv H. bind_inv H.
  injection H as <-. cbn [positions betas current_prices].
  apply dict_build_keys in E0 as [K0 F0]. apply dict_build_keys in E4 as [K4 F4].
  rewrite map_id in K4. fold (dict_keys portfolio) in K0.
  split; [congruence|]. split.
  - unfold dict_keys. apply Forall_map. eapply Forall_impl; [|exact F0].
    cbn beta. intros [k v] [w G]. cbn [fst snd] in *.
    destruct (series_get s k); [discriminate | eauto].
  - rewrite Forall_forall. intros k Hk. apply dict_get_mem, mem_In.
    rewrite K4. apply fold_add_key_In. now right.
Qed.

Lemma inputs_run portfolio inp total :
  portfolio_inputs yf_download portfolio = ret inp ->
  exists cb pc bc,
    current_beta_of total inp = ret cb
    /\ mapM (series_get (current_prices inp)) (dict_keys portfolio) = ret pc
    /\ mapM (fun t => dict_get t (betas inp)) (dict_keys portfolio) = ret bc
    /\ length pc = length portfolio
    /\ forall target,
         portfolio_beta_weighting yf_download portfolio total target
         = ret (mkRebalanceResult
                  (dict_keys portfolio) (dict_values portfolio) pc bc
                  (current_weights total inp)
                  (normalize target cb (current_weights total inp))
                  (share_counts total
                     (normalize target cb (current_weights total inp)) pc)).
Proof.
  intros H. destruct (inputs_shapes _ _ H) as (K & P & B).
  destruct (mapM_success _ _ P) as (pc & Hpc & Lpc).
  destruct (mapM_success _ _ B) as (bc & Hbc & Lbc).
  assert (D : exists cb, current_beta_of total inp = ret cb).
  { unfold current_beta_of, np_dot. rewrite length_map.
    unfold dict_values. rewrite !length_map.
    replace (length (betas inp)) with (length (positions inp)).
    - rewrite Nat.eqb_refl. eauto.
    - rewrite <- (length_map fst (positions inp)), <- (length_map fst (betas inp)).
      unfold dict_keys in K. now rewrite K. }
  destruct D as [cb Hcb]. exists cb, pc, bc.
  repeat split; auto.
  - rewrite Lpc. unfold dict_keys. apply length_map.
  - intros target. unfold portfolio_beta_weighting. rewrite H. cbn [bind ret].
    unfold rebalance. cbv zeta. unfold current_beta_of in Hcb.
    rewrite Hcb. cbn [bind ret]. rewrite Hpc, Hbc. reflexivity.
Qed.

Lemma rebalancer_inv portfolio total target res :
  portfolio_beta_weighting yf_download portfolio total target = ret res ->
  exists inp, portfolio_inputs yf_download portfolio = ret inp.
Proof.
  unfold portfolio_beta_weighting. intros H.
  destruct (portfolio_inputs yf_download portfolio); [discriminate | eauto].
Qed.

End Rebalancer.

(** * Arithmetic of the weights *)

(** ** Values that are not finite *)

Lemma np_div_by_zero a : np_isfinite (np_div a (Fin 0)) = false.
Proof.
  destruct a; cbn [np_div np_sign]; unfold divisor_sign;
    rewrite ?Rcompare_refl; try reflexivity.
  now destruct (Rcompare x 0).
Qed.

Lemma np_mul_nonfinite_r a b :
  np_isfinite b = false -> np_isfinite (np_mul a b) = false.
Proof.
  destruct b; [discriminate| | |]; intros _; destruct a; cbn [np_mul np_sign];
    try reflexivity; now destruct (Rcompare x 0).
Qed.

Lemma np_add_nonfinite_l a b :
  np_isfinite a = false -> np_isfinite (np_add a b) = false.
Proof. destruct a; [discriminate| | |]; intros _; now destruct b. Qed.

Lemma np_add_nonfinite_r a b :
  np_isfinite b = false -> np_isfinite (np_add a b) = false.
Proof. destruct b; [discriminate| | |]; intros _; now destruct a. Qed.

Lemma np_div_nonfinite a b :
  np_isfinite a = false -> np_isfinite b = false -> np_div a b = NaN.
Proof. destruct a; [discriminate| | |]; intros _; now destruct b. Qed.

Lemma fold_add_nonfinite l a :
  np_isfinite a = false -> np_isfinite (fold_left np_add l a) = false.
Proof.
  revert a. induction l as [|x l IH]; intros a H; [exact H|].
  cbn [fold_left]. apply IH. now apply np_add_nonfinite_l.
Qed.

Lemma np_sum_nonfinite l :
  l <> [] -> Forall (fun x => np_isfinite x = false) l ->
  np_isfinite (np_sum l) = false.
Proof.
  intros N F. destruct l as [|x l]; [congruence|]. inversion F; subst.
  unfold np_sum. cbn [fold_left]. apply fold_add_nonfinite.
  now apply np_add_nonfinite_r.
Qed.

(** ** A current beta of zero *)

Lemma normalize_zero_beta target cw :
  Forall (fun w => w = NaN) (normalize target (Fin 0) cw).
Proof.
  unfold normalize. cbv zeta.
  set (s := np_div target (Fin 0)).
  assert (S : np_isfinite s = false) by apply np_div_by_zero.
  set (nw := map (fun w => np_mul w s) cw).
  assert (F : Forall (fun x => np_isfinite x = false) nw).
  { unfold nw. apply Forall_map, Forall_forall. intros w _.
    now apply np_mul_nonfinite_r. }
  destruct cw as [|w cw]; [constructor|].
  assert (T : np_isfinite (np_sum nw) = false).
  { apply np_sum_nonfinite; [discriminate | exact F]. }
  apply Forall_map. eapply Forall_impl; [|exact F].
  cbn beta. intros a Ha. now apply np_div_nonfinite.
Qed.

Lemma share_counts_nan total weights prices :
  Forall (fun w => w = NaN) weights ->
  Forall (fun n => n = NaN) (share_counts total weights prices).
Proof.
  unfold share_counts. intros H. revert prices.
  induction H as [|w ws Hw _ IH]; intros [|p ps]; cbn [map map2]; constructor.
  - now rewrite Hw.
  - apply IH.
Qed.

(** ** Finite weights *)

Lemma Rsum_scale (s : R) l : Rsum (map (fun w => w * s) l) = Rsum l * s.
Proof. induction l as [|a l IH]; simpl; [lra|]. rewrite IH. lra. Qed.


Lemma map_div_Fin (S : R) l :
  S <> 0 -> map (fun w => np_div w (Fin S)) (map Fin l)
            = map Fin (map (fun w => w / S) l).
Proof.
  intros H. rewrite !map_map. apply map_ext. intros a. now apply np_div_Fin.
Qed.

(** The scale factor cancels. *)
Lemma normalize_Fin (t b : R) ws :
  t <> 0 -> b <> 0 -> Rsum ws <> 0 ->
  normalize (Fin t) (Fin b) (map Fin ws)
  = map Fin (map (fun w => w / Rsum ws) ws).
Proof.
  intros Ht Hb Hs. unfold normalize. cbv zeta.
  rewrite np_div_Fin by assumption.
  replace (map (fun w => np_mul w (Fin (t / b))) (map Fin ws))
    with (map Fin (map (fun w => w * (t / b)) ws))
    by (rewrite !map_map; reflexivity).
  rewrite np_sum_Fin, Rsum_scale.
  assert (Hq : t / b <> 0).
  { unfold Rdiv. apply Rmult_integral_contrapositive_currified; [exact Ht|].
    now apply Rinv_neq_0_compat. }
  rewrite map_div_Fin by (apply Rmult_integral_contrapositive_currified; assumption).
  f_equal. rewrite map_map. apply map_ext. intros w. field. repeat split; auto.
Qed.

Lemma normalize_zero_target (b : R) ws :
  b <> 0 ->
  normalize (Fin 0) (Fin b) (map Fin ws) = map (fun _ => NaN) ws.
Proof.
  intros Hb. unfold normalize. cbv zeta. rewrite np_div_Fin by assumption.
  replace (0 / b) with 0 by (field; assumption).
  replace (map (fun w => np_mul w (Fin 0)) (map Fin ws))
    with (map Fin (map (fun w => w * 0) ws))
    by (rewrite !map_map; reflexivity).
  rewrite np_sum_Fin, Rsum_scale, Rmult_0_r, !map_map.
  apply map_ext. intros w. rewrite np_div_zero.
  now rewrite Rmult_0_r, Rcompare_refl.
Qed.

(** ** Sums of positive values *)


(** * The rebalancer *)

Section RebalancerProperties.

Variable yf_download : list string -> option (string * string) -> Payload.

(** A current beta of zero stops nothing. *)
Lemma zero_beta_run portfolio total target inp :
  portfolio_inputs yf_download portfolio = ret inp ->
  current_beta_of total inp = ret (Fin 0) ->
  exists res,
    portfolio_beta_weighting yf_download portfolio total target = ret res
    /\ Forall (fun w => w = NaN) (Adjusted_Weight res)
    /\ Forall (fun n => n = NaN) (New_Shares res).
Proof.
  intros H Hcb.
  destruct (inputs_run yf_download _ _ total H) as (cb & pc & bc & Hcb' & _ & _ & _ & R).
  rewrite Hcb in Hcb'. injection Hcb' as <-.
  eexists. split; [apply R|]. cbn [Adjusted_Weight New_Shares].
  split; [apply normalize_zero_beta|].
  apply share_counts_nan, normalize_zero_beta.
Qed.

(** C2, as the code has it: when the current portfolio beta is exactly
    zero the rebalancer raises nothing; it returns a result whose
    adjusted weights and new share counts are all [nan]. *)
Theorem C2_zero_portfolio_beta portfolio total target inp :
  portfolio_inputs yf_download portfolio = ret inp ->
  current_beta_of total inp = ret (Fin 0) ->
  exists res,
    portfolio_beta_weighting yf_download portfolio total target = ret res
    /\ Forall (fun w => w = NaN) (Adjusted_Weight res)
    /\ Forall (fun n => n = NaN) (New_Shares res).
Proof. apply zero_beta_run. Qed.

End RebalancerProperties.

(** * Running the market *)

Lemma spy_variance : 0 < variance spy_log_returns.
Proof.
  unfold spy_log_returns. rewrite variance_pair.
  assert (ln (1 / 2) < ln (2 / 1)) by (apply ln_increasing; lra).
  assert (0 < (ln (2 / 1) - ln (1 / 2)) * (ln (2 / 1) - ln (1 / 2)))
    by (apply Rmult_lt_0_compat; lra).
  lra.
Qed.

Lemma Rsum_map2_zero_r ds es :
  Forall (fun e => e = 0) es -> Rsum (map2 Rmult ds es) = 0.
Proof.
  intros H. revert ds. induction H as [|e es He _ IH]; intros [|d ds]; simpl; auto.
  rewrite IH, He. lra.
Qed.

Lemma covariance_const_r (h : R) xs ys :
  Forall (fun a => a = h) ys -> covariance xs ys = 0.
Proof.
  intros H. unfold covariance.
  rewrite Rsum_map2_zero_r by (eapply deviations_const; eauto). lra.
Qed.

(** An asset whose returns are constant has beta 0 and R squared 0. *)
Lemma calculate_beta_constant_asset (h : R) (xs ys : list R) :
  length xs = length ys -> 0 < variance xs -> Forall (fun a => a = h) ys ->
  calculate_beta (map Fin ys) (map Fin xs) = ret (Fin 0, Fin 0).
Proof.
  intros L V C. rewrite calculate_beta_Fin by assumption.
  unfold correlation. rewrite (covariance_const_r h) by assumption.
  unfold variance at 2. rewrite (covariance_const_r h) by assumption.
  rewrite Rcompare_refl. unfold ret. do 3 f_equal; field. lra.
Qed.

Lemma np_log_ratio (p q : R) :
  0 < p -> 0 < q -> np_log (np_div (Fin q) (Fin p)) = Fin (ln (q / p)).
Proof.
  intros Hp Hq. rewrite np_div_Fin by lra. unfold np_log.
  assert (0 < q / p) by (apply Rdiv_lt_0_compat; assumption).
  now rewrite Rcompare_gt.
Qed.

Lemma market_rows_positive tickers :
  Forall (fun c => c = "A"%string \/ c = "B"%string \/ c = "SPY"%string) tickers ->
  Forall (fun r => forall c, In c tickers -> positive (r c)) market_rows.
Proof.
  intros H. rewrite Forall_forall in H.
  repeat constructor; intros c Hc; destruct (H c Hc) as [-> | [-> | ->]];
    eexists; (split; [reflexivity | lra]).
Qed.

Lemma market_returns tickers :
  tickers <> [] ->
  Forall (fun c => c = "A"%string \/ c = "B"%string \/ c = "SPY"%string) tickers ->
  calculate_returns (mkDataFrame tickers market_rows)
  = ret (mkDataFrame tickers
           [log_ratio (price_row 1 50 1) (price_row 2 50 2);
            log_ratio (price_row 2 50 2) (price_row 1 50 1)]).
Proof.
  intros N H. unfold market_rows.
  rewrite calculate_returns_positive; [reflexivity | exact N |].
  now apply market_rows_positive.
Qed.

Lemma spy_column :
  [log_ratio (price_row 1 50 1) (price_row 2 50 2) "SPY"%string;
   log_ratio (price_row 2 50 2) (price_row 1 50 1) "SPY"%string]
  = map Fin spy_log_returns.
Proof.
  unfold log_ratio, price_row. cbn [String.eqb Ascii.eqb Bool.eqb].
  now rewrite !np_log_ratio by lra.
Qed.

Lemma A_column :
  [log_ratio (price_row 1 50 1) (price_row 2 50 2) "A"%string;
   log_ratio (price_row 2 50 2) (price_row 1 50 1) "A"%string]
  = map Fin spy_log_returns.
Proof.
  unfold log_ratio, price_row. cbn [String.eqb Ascii.eqb Bool.eqb].
  now rewrite !np_log_ratio by lra.
Qed.

Lemma B_column :
  [log_ratio (price_row 1 50 1) (price_row 2 50 2) "B"%string;
   log_ratio (price_row 2 50 2) (price_row 1 50 1) "B"%string]
  = map Fin [ln (50 / 50); ln (50 / 50)].
Proof.
  unfold log_ratio, price_row. cbn [String.eqb Ascii.eqb Bool.eqb].
  now rewrite !np_log_ratio by lra.
Qed.

Lemma market_inputs_A :
  portfolio_inputs market holding_A
  = ret (mkInputs (mkSeries ["A"%string] (price_row 1 50 1))
           [("A"%string, Fin (10 * 1))] [("A"%string, Fin 1)]).
Proof.
  unfold portfolio_inputs.
  change (fetch_current_prices market holding_A)
    with (ret (mkSeries ["A"%string] (price_row 1 50 1))).
  cbn [bind ret]. set (g := fun item : string * npfloat => _).
  change (dict_build fst g holding_A)
    with (ret [("A"%string, Fin (10 * 1))] : result (dict npfloat)).
  cbn [bind ret].
  change (get_historical_data market (dict_keys holding_A) "2020-01-01" "2023-01-01")
    with (ret (mkDataFrame ["A"%string; "SPY"%string] market_rows)).
  cbn [bind ret].
  rewrite market_returns by (try discriminate; repeat constructor; auto).
  cbn [bind ret].
  change (df_col _ "SPY")
    with (ret [log_ratio (price_row 1 50 1) (price_row 2 50 2) "SPY"%string;
               log_ratio (price_row 2 50 2) (price_row 1 50 1) "SPY"%string]).
  cbn [bind ret]. rewrite spy_column.
  unfold dict_build, holding_A. cbn [dict_keys map fst foldM]. unfold build_step.
  change (df_col _ "A")
    with (ret [log_ratio (price_row 1 50 1) (price_row 2 50 2) "A"%string;
               log_ratio (price_row 2 50 2) (price_row 1 50 1) "A"%string]).
  cbn [bind ret]. rewrite A_column.
  rewrite calculate_beta_self by apply spy_variance.
  reflexivity.
Qed.

Lemma market_inputs_B :
  portfolio_inputs market holding_B
  = ret (mkInputs (mkSeries ["B"%string] (price_row 1 50 1))
           [("B"%string, Fin (10 * 50))] [("B"%string, Fin 0)]).
Proof.
  unfold portfolio_inputs.
  change (fetch_current_prices market holding_B)
    with (ret (mkSeries ["B"%string] (price_row 1 50 1))).
  cbn [bind ret]. set (g := fun item : string * npfloat => _).
  change (dict_build fst g holding_B)
    with (ret [("B"%string, Fin (10 * 50))] : result (dict npfloat)).
  cbn [bind ret].
  change (get_historical_data market (dict_keys holding_B) "2020-01-01" "2023-01-01")
    with (ret (mkDataFrame ["B"%string; "SPY"%string] market_rows)).
  cbn [bind ret].
  rewrite market_returns by (try discriminate; repeat constructor; auto).
  cbn [bind ret].
  change (df_col _ "SPY")
    with (ret [log_ratio (price_row 1 50 1) (price_row 2 50 2) "SPY"%string;
               log_ratio (price_row 2 50 2) (price_row 1 50 1) "SPY"%string]).
  cbn [bind ret]. rewrite spy_column.
  unfold dict_build, holding_B. cbn [dict_keys map fst foldM]. unfold build_step.
  change (df_col _ "B")
    with (ret [log_ratio (price_row 1 50 1) (price_row 2 50 2) "B"%string;
               log_ratio (price_row 2 50 2) (price_row 1 50 1) "B"%string]).
  cbn [bind ret]. rewrite B_column.
  rewrite (calculate_beta_constant_asset (ln (50 / 50)))
    by (try reflexivity; try apply spy_variance; repeat constructor).
  reflexivity.
Qed.

(** * Current weights and share counts *)

Lemma positions_of_shares prices (portfolio : dict npfloat) vs :
  mapM (fun item : string * npfloat =>
          p <- series_get prices (fst item) ;; ret (np_mul (snd item) p))
       portfolio = ret vs ->
  exists pc, mapM (series_get prices) (dict_keys portfolio) = ret pc
             /\ vs = map2 np_mul (dict_values portfolio) pc.
Proof.
  revert vs. induction portfolio as [|[k s] portfolio IH]; intros vs H.
  - injection H as <-. exists []. split; reflexivity.
  - cbn [mapM fst snd] in H.
    destruct (series_get prices k) as [e|p] eqn:G; [discriminate|]. cbn [bind ret] in H.
    destruct (mapM _ portfolio) as [e|vs'] eqn:M; [discriminate|]. cbn [bind ret] in H.
    injection H as <-. destruct (IH vs' eq_refl) as (pc & Hpc & ->).
    exists (p :: pc). cbn [dict_keys map fst mapM]. fold (dict_keys portfolio).
    rewrite G, Hpc. split; reflexivity.
Qed.

Lemma values_combine {V} (ks : list string) (vs : list V) :
  length ks = length vs -> dict_values (combine ks vs) = vs.
Proof.
  revert vs. induction ks as [|k ks IH]; intros [|v vs] L; try discriminate; [reflexivity|].
  cbn [combine dict_values map snd]. f_equal. apply IH. simpl in L. lia.
Qed.


Lemma inputs_positions yf portfolio inp :
  NoDup (dict_keys portfolio) ->
  portfolio_inputs yf portfolio = ret inp ->
  exists pc,
    mapM (series_get (current_prices inp)) (dict_keys portfolio) = ret pc
    /\ dict_values (positions inp) = map2 np_mul (dict_values portfolio) pc.
Proof.
  intros N H. unfold portfolio_inputs in H.
  bind_inv H. bind_inv H. bind_inv H. bind_inv H. bind_inv H. bind_inv H.
  injection H as <-. cbn [positions current_prices].
  apply dict_build_nodup in E0 as (vs & M & ->); [|exact N].
  pose proof (mapM_length _ _ _ M) as L.
  destruct (positions_of_shares _ _ _ M) as (pc & Hpc & ->).
  exists pc. split; [exact Hpc|]. apply values_combine.
  rewrite length_map. congruence.
Qed.

Lemma term_le_Rsum ps p :
  Forall (fun q => 0 <= q) ps -> In p ps -> 0 <= p <= Rsum ps.
Proof.
  induction 1 as [|q ps Hq H IH]; intros I; [contradiction|].
  simpl. assert (0 <= Rsum ps).
  { clear IH I. induction H; simpl; lra. }
  destruct I as [->|I]; [lra|]. specialize (IH I). lra.
Qed.

Lemma round_half_even_spec (q : R) :
  Rabs (IZR (round_half_even q) - q) <= 1 / 2
  /\ (Rabs (IZR (round_half_even q) - q) = 1 / 2 ->
      Z.even (round_half_even q) = true)
  /\ (0 <= q -> (0 <= round_half_even q)%Z).
Proof.
  unfold round_half_even. pose proof (Zfloor_bound q) as [B1 B2].
  assert (N : 0 <= q -> (0 <= Zfloor q)%Z) by (intros; now apply Zfloor_lub).
  set (f := Zfloor q) in *.
  destruct (Rcompare_spec (q - IZR f) (1 / 2)) as [E|E|E].
  - destruct (Z.even f) eqn:Ev.
    + split; [rewrite Rabs_left1 by lra; lra|]. split; [auto | exact N].
    + rewrite plus_IZR. split; [rewrite Rabs_right by lra; lra|].
      split; [|intros; specialize (N H); lia].
      intros _. rewrite Z.add_1_r, Z.even_succ, <- Z.negb_even, Ev. reflexivity.
  - split; [rewrite Rabs_left1 by lra; lra|]. split; [|exact N].
    rewrite Rabs_left1 by lra. intros; lra.
  - rewrite plus_IZR. split; [rewrite Rabs_right by lra; lra|].
    split; [|intros; specialize (N H); lia].
    rewrite Rabs_right by lra. intros; lra.
Qed.


(** C10, as the code has it: each new share count is [np.round] of
    adjusted weight times total over the current price.  Where that
    quotient is a finite number, the count is the nearest whole number,
    the even one on a tie, and it is not negative when the quotient is
    not; where the quotient is not finite, neither is the count. *)
Theorem C10_new_shares
    (yf_download : list string -> option (string * string) -> Payload)
    (portfolio : dict npfloat) (total target : npfloat) (res : RebalanceResult) :
  portfolio_beta_weighting yf_download portfolio total target = ret res ->
  let quotients :=
    map2 np_div (map (fun w => np_mul w total) (Adjusted_Weight res))
         (Current_Price res) in
  New_Shares res = map np_rint quotients
  /\ (forall i q,
        nth_error quotients i = Some (Fin q) ->
        exists z : Z,
          nth_error (New_Shares res) i = Some (Fin (IZR z))
          /\ Rabs (IZR z - q) <= 1 / 2
          /\ (Rabs (IZR z - q) = 1 / 2 -> Z.even z = true)
          /\ (0 <= q -> (0 <= z)%Z))
  /\ (forall i a,
        nth_error quotients i = Some a -> np_isfinite a = false ->
        nth_error (New_Shares res) i = Some a).
Proof.
  intros H quotients. destruct (rebalancer_inv _ _ _ _ _ H) as [inp I].
  destruct (inputs_run yf_download _ _ total I) as (cb & pc & bc & _ & _ & _ & _ & R).
  rewrite R in H. injection H as <-.
  assert (E : New_Shares
                (mkRebalanceResult (dict_keys portfolio) (dict_values portfolio) pc bc
                   (current_weights total inp)
                   (normalize target cb (current_weights total inp))
                   (share_counts total
                      (normalize target cb (current_weights total inp)) pc))
              = map np_rint quotients) by reflexivity.
  split; [exact E|]. rewrite E. split.
  - intros i q Q. exists (round_half_even q).
    rewrite nth_error_map, Q. split; [reflexivity | apply round_half_even_spec].
  - intros i a Q F. rewrite nth_error_map, Q. now destruct a.
Qed.

(** * The weights up to rounding *)

(** ** Lines 62 to 64 and 77 to 79 up to rounding *)

Lemma rounding_exact : rounding no_rounding.
Proof.
  intros x _. unfold Rminus. rewrite Rplus_opp_r, Rabs_R0.
  destruct unit_roundoff_bounds as [U _]. pose proof (Rabs_pos x). nra.
Qed.

Lemma magnitude_one k : magnitude k 1.
Proof.
  unfold magnitude. rewrite Rabs_R1.
  assert (1 <= 2 ^ k) by (apply pow_R1_Rle; lra). split; [|assumption].
  apply Rle_trans with (/ 1); [apply Rinv_le_contravar; lra | rewrite Rinv_1; lra].
Qed.

Lemma Forall2_maps {A B C D} (P : C -> D -> Prop) (f : A -> C) (g : B -> D) l m :
  Forall2 (fun a b => P (f a) (g b)) l m -> Forall2 P (map f l) (map g m).
Proof. induction 1; simpl; constructor; auto. Qed.

Lemma Forall2_and_right {A B} (P : A -> B -> Prop) (Q : B -> Prop) l m :
  Forall2 P l m -> Forall Q m -> Forall2 (fun a b => P a b /\ Q b) l m.
Proof.
  induction 1 as [|a b l0 m0 H _ IH]; intros F; [constructor|].
  inversion F; subst. constructor; auto.
Qed.

Lemma Forall2_join {A B} (P Q : A -> B -> Prop) l l' m :
  Forall2 P l m -> Forall2 Q l' m ->
  Forall2 (fun a a' => exists b, P a b /\ Q a' b) l l'.
Proof.
  intros H. revert l'. induction H as [|a b l0 m0 Hab _ IH]; intros l' H'.
  - inversion H'; subst. constructor.
  - inversion H' as [|a' ? l'' ? Ha' Hl']; subst. constructor; eauto.
Qed.

Lemma Forall2_map2_pointwise {A B C} (P : C -> C -> Prop) (Q : B -> Prop)
    (g : A -> B -> C) l l' m :
  Forall2 (fun a a' => forall b, Q b -> P (g a b) (g a' b)) l l' ->
  Forall Q m ->
  Forall2 P (map2 g l m) (map2 g l' m).
Proof.
  intros H. revert m. induction H as [|a a' l0 l0' Ha _ IH]; intros m F.
  - destruct m; constructor.
  - destruct m as [|b m]; [constructor|]. inversion F; subst.
    cbn [map2]. constructor; auto.
Qed.

Lemma map2_same_length {A B C} (f : A -> B -> C) l m :
  length l = length m -> length (map2 f l m) = length l.
Proof.
  revert m. induction l as [|a l IH]; intros [|b m]; simpl; intros H;
    try discriminate; auto.
Qed.

Lemma Forall2_refl_approx l : Forall2 (approx 0) l l.
Proof. induction l; constructor; auto using approx_refl. Qed.

Lemma same_sign_scale (s : R) refs :
  s <> 0 -> same_sign refs -> same_sign (map (fun w => w * s) refs).
Proof.
  intros N [P|P]; destruct (Rlt_or_le 0 s) as [Q|Q].
  - left. apply Forall_map. eapply Forall_impl; [|exact P]. simpl. intros; nra.
  - right. apply Forall_map. eapply Forall_impl; [|exact P]. simpl. intros; nra.
  - right. apply Forall_map. eapply Forall_impl; [|exact P]. simpl. intros; nra.
  - left. apply Forall_map. eapply Forall_impl; [|exact P]. simpl. intros; nra.
Qed.

(** The shares of a sum of terms of one sign lie between 0 and 1. *)
Lemma same_sign_share m refs b :
  (length refs <= 1024)%nat -> same_sign refs -> Forall (magnitude m) refs ->
  In b refs -> 0 < b / Rsum refs <= 1.
Proof.
  intros L S M I.
  assert (N : refs <> []) by (intros ->; contradiction).
  destruct (same_sign_sum m refs N L S M) as (_ & Pos & Neg).
  destruct S as [P|P].
  - specialize (Pos P). pose proof (proj1 (Forall_forall _ _) P b I) as Pb. cbn beta in Pb.
    assert (Q : Forall (fun q => 0 <= q) refs)
      by (eapply Forall_impl; [|exact P]; simpl; intros; lra).
    destruct (term_le_Rsum refs b Q I) as [_ U].
    split; [now apply Rdiv_lt_0_compat|].
    apply (Rmult_le_reg_r (Rsum refs)); [assumption|].
    unfold Rdiv. rewrite Rmult_assoc, Rinv_l by lra. lra.
  - specialize (Neg P). pose proof (proj1 (Forall_forall _ _) P b I) as Pb. cbn beta in Pb.
    assert (Q : Forall (fun q => 0 <= q) (map Ropp refs)).
    { apply Forall_map. eapply Forall_impl; [|exact P]. simpl. intros; lra. }
    destruct (term_le_Rsum (map Ropp refs) (- b) Q) as [_ U]; [now apply in_map|].
    rewrite Rsum_opp in U.
    replace (b / Rsum refs) with ((- b) / (- Rsum refs)) by (field; lra).
    split; [apply Rdiv_lt_0_compat; lra|].
    apply (Rmult_le_reg_r (- Rsum refs)); [lra|].
    unfold Rdiv. rewrite Rmult_assoc, Rinv_l by lra. lra.
Qed.

(** The adjusted weights, from weights known to [j] roundings. *)
Lemma normalized_approx rnd (t cb total : R) j (cw refs : list R) :
  rounding rnd -> magnitude 100 t -> magnitude 100 cb ->
  Forall2 (approx j) cw refs -> same_sign refs -> Forall (magnitude 200) refs ->
  (j <= 8)%nat -> (length cw <= 1024)%nat ->
  summed rnd (new_weights_fl rnd t cb cw) total ->
  Forall2 (approx (2 * j + length cw + 5))
    (normalized_fl rnd total (new_weights_fl rnd t cb cw))
    (map (fun w => w / Rsum refs) refs).
Proof.
  intros Hr Mt Mb F Sg M J L H.
  set (sref := t / cb).
  assert (Ms : magnitude 200 sref) by (apply (magnitude_div 100 100); assumption).
  pose proof (magnitude_nonzero _ _ Ms) as Ns.
  assert (As : approx 1 (rnd sref) sref).
  { apply approx_rnd; [exact Hr | | apply approx_refl].
    eapply magnitude_weaken; [|exact Ms]. lia. }
  assert (Ms' : magnitude 201 (rnd sref))
    by (apply (approx_magnitude 1 200 _ sref); [lia | exact As | exact Ms]).
  pose proof (Forall2_and_right _ _ _ _ F M) as F'.
  assert (Fnw : Forall2 (fun a b => approx (j + 2) a b /\ magnitude 401 a)
                  (new_weights_fl rnd t cb cw) (map (fun w => w * sref) refs)).
  { unfold new_weights_fl. apply Forall2_maps. eapply Forall2_impl; [|exact F'].
    cbn beta. intros w b [A Mb']. fold sref.
    assert (Mw : magnitude 201 w)
      by (apply (approx_magnitude j 200 _ b); [lia | exact A | exact Mb']).
    assert (A2 : approx (j + 2) (rnd (w * rnd sref)) (b * sref)).
    { replace (j + 2)%nat with (S (j + 1)) by lia.
      apply approx_rnd; [exact Hr | | now apply approx_mul].
      apply (magnitude_weaken (201 + 201)); [lia|]. now apply magnitude_mul. }
    split; [exact A2|].
    apply (approx_magnitude (j + 2) 400 _ (b * sref)); [lia | exact A2 |].
    now apply (magnitude_mul 200 200). }
  assert (Fa : Forall2 (approx (j + 2)) (new_weights_fl rnd t cb cw)
                 (map (fun w => w * sref) refs))
    by (eapply Forall2_impl; [|exact Fnw]; cbn beta; intros ? ? [A _]; exact A).
  assert (Ln : length (new_weights_fl rnd t cb cw) = length cw)
    by (unfold new_weights_fl; apply length_map).
  assert (Mr : Forall (magnitude 400) (map (fun w => w * sref) refs)).
  { apply Forall_map. eapply Forall_impl; [|exact M]. cbn beta. intros b Hb.
    now apply (magnitude_mul 200 200). }
  assert (Sr : same_sign (map (fun w => w * sref) refs)) by now apply same_sign_scale.
  pose proof (summed_approx rnd (j + 2) 400 _ _ Hr H _ Fa Sr Mr) as AS.
  rewrite Ln in AS. specialize (AS L ltac:(lia) ltac:(lia)).
  rewrite Rsum_scale in AS.
  pose proof (Forall2_length F) as Lr.
  assert (Nr : refs <> []).
  { intros ->. apply summed_length in H. rewrite Ln, Lr in H. simpl in H. lia. }
  destruct (same_sign_sum 200 refs Nr ltac:(lia) Sg M) as (MS & _ & _).
  pose proof (magnitude_nonzero _ _ MS) as NS.
  assert (MT : magnitude 411 total).
  { apply (approx_magnitude (j + 2 + length cw) 410 _ (Rsum refs * sref));
      [lia | exact AS |]. now apply (magnitude_mul 210 200). }
  unfold normalized_fl. apply Forall2_maps.
  assert (G : Forall2 (fun a b => (approx (j + 2) a (b * sref) /\ magnitude 401 a)
                                  /\ magnitude 200 b)
                (new_weights_fl rnd t cb cw) refs).
  { apply Forall2_and_right; [|exact M].
    clear - Fnw. remember (new_weights_fl rnd t cb cw) as nw. clear Heqnw.
    revert nw Fnw. induction refs as [|b refs IH]; intros nw Fnw;
      inversion Fnw; subst; constructor; auto. }
  eapply Forall2_impl; [|exact G]. cbn beta. intros a b [[A Ma] Mb'].
  replace (2 * j + length cw + 5)%nat with (S ((j + 2) + (j + 2 + length cw))) by lia.
  replace (b / Rsum refs) with ((b * sref) / (Rsum refs * sref)) by (field; split; assumption).
  apply approx_rnd; [exact Hr | |].
  - apply (magnitude_weaken (401 + 411)); [lia|]. now apply magnitude_div.
  - apply approx_div; [|exact A | exact AS].
    apply Rmult_integral_contrapositive_currified; assumption.
Qed.

Lemma approx_close k a b :
  (k <= 4096)%nat -> approx k a b -> Rabs (a - b) <= 2 / 10 ^ 12 * Rabs b.
Proof.
  intros K A. destruct (approx_factor _ _ _ K A) as (f & [F1 F2] & ->).
  replace (b * f - b) with (b * (f - 1)) by ring. rewrite Rabs_mult, Rmult_comm.
  apply Rmult_le_compat_r; [apply Rabs_pos|].
  assert (T : 0 < 1 / 10 ^ 12) by (simpl; lra).
  apply Rabs_le. lra.
Qed.

Lemma positive_weights cw :
  Forall (fun w => 0 < w /\ magnitude 100 w) cw ->
  same_sign cw /\ Forall (magnitude 100) cw /\ Forall (magnitude 200) cw.
Proof.
  intros H. split; [left|split].
  - eapply Forall_impl; [|exact H]. cbn beta. tauto.
  - eapply Forall_impl; [|exact H]. cbn beta. tauto.
  - eapply Forall_impl; [|exact H]. cbn beta. intros w [_ M].
    eapply magnitude_weaken; [|exact M]. lia.
Qed.

(** The adjusted weights of positive current weights: each is its weight's
    share of the sum, up to [n + 5] roundings. *)
Lemma adjusted_weights_approx rnd (t cb total : R) (cw : list R) :
  rounding rnd -> magnitude 100 t -> magnitude 100 cb ->
  Forall (fun w => 0 < w /\ magnitude 100 w) cw -> (length cw <= 1024)%nat ->
  summed rnd (new_weights_fl rnd t cb cw) total ->
  Forall2 (fun a share => approx (length cw + 5) a share
                          /\ 0 < share <= 1 /\ magnitude 210 share)
    (normalized_fl rnd total (new_weights_fl rnd t cb cw))
    (map (fun w => w / Rsum cw) cw).
Proof.
  intros Hr Mt Mb P L H. destruct (positive_weights cw P) as (Sg & M1 & M2).
  pose proof (normalized_approx rnd t cb total 0 cw cw Hr Mt Mb
                (Forall2_refl_approx cw) Sg M2 ltac:(lia) L H) as F.
  cbn [Nat.mul Nat.add] in F.
  apply Forall2_and_right; [exact F|].
  assert (N : cw <> []).
  { intros ->. apply summed_length in H. simpl in H. lia. }
  destruct (same_sign_sum 100 cw N L Sg M1) as (MS & _ & _).
  apply Forall_map. rewrite Forall_forall. intros w I.
  split; [now apply (same_sign_share 100)|].
  apply (magnitude_div 100 110); [|exact MS].
  now apply (proj1 (Forall_forall _ _) M1).
Qed.

Lemma share_quotient_approx rnd K (T p a share : R) :
  rounding rnd -> (K <= 4000)%nat -> magnitude 100 T -> magnitude 100 p ->
  magnitude 210 share -> approx K a share ->
  approx (K + 2) (rnd (rnd (a * T) / p)) (share * T / p).
Proof.
  intros Hr HK MT Mp Ms A.
  pose proof (magnitude_nonzero _ _ Mp) as Np.
  assert (Ma : magnitude 211 a)
    by (apply (approx_magnitude K 210 _ share); [lia | exact A | exact Ms]).
  assert (A1 : approx (S K) (rnd (a * T)) (share * T)).
  { apply approx_rnd; [exact Hr | |].
    - apply (magnitude_weaken (211 + 100)); [lia|]. now apply magnitude_mul.
    - replace K with (K + 0)%nat by lia. apply approx_mul; [exact A | apply approx_refl]. }
  assert (M1 : magnitude 311 (rnd (a * T))).
  { apply (approx_magnitude (S K) 310 _ (share * T)); [lia | exact A1 |].
    now apply (magnitude_mul 210 100). }
  replace (K + 2)%nat with (S (S K + 0)) by lia.
  apply approx_rnd; [exact Hr | |].
  - apply (magnitude_weaken (311 + 100)); [lia|]. now apply magnitude_div.
  - apply approx_div; [exact Np | exact A1 | apply approx_refl].
Qed.

Lemma whole_numbers_close (z z' : Z) :
  Rabs (IZR z - IZR z') < 2 -> Rabs (IZR z - IZR z') <= 1.
Proof.
  rewrite <- minus_IZR. intros H.
  assert (B : (-2 < z - z' < 2)%Z).
  { split; apply lt_IZR; unfold Rabs in H; destruct (Rcase_abs (IZR (z - z'))); lra. }
  apply Rabs_le. split; [rewrite <- opp_IZR|]; apply IZR_le; lia.
Qed.

(** Two share counts from weights that are one share up to rounding differ
    by at most one. *)
Lemma new_share_close rnd K (T p a a' share : R) :
  rounding rnd -> (K <= 4000)%nat -> magnitude 100 T ->
  0 < p -> magnitude 100 p -> Rabs T <= 2 ^ 30 * p ->
  magnitude 210 share -> 0 < share <= 1 ->
  approx K a share -> approx K a' share ->
  Rabs (IZR (round_half_even (rnd (rnd (a * T) / p)))
        - IZR (round_half_even (rnd (rnd (a' * T) / p)))) <= 1.
Proof.
  intros Hr HK MT Pp Mp B Ms Ps A A'.
  pose proof (share_quotient_approx rnd K T p a share Hr HK MT Mp Ms A) as Q.
  pose proof (share_quotient_approx rnd K T p a' share Hr HK MT Mp Ms A') as Q'.
  set (q := rnd (rnd (a * T) / p)) in *. set (q' := rnd (rnd (a' * T) / p)) in *.
  apply approx_factor in Q as (f & [F1 F2] & Eq); [|lia].
  apply approx_factor in Q' as (f' & [F1' F2'] & Eq'); [|lia].
  destruct (round_half_even_spec q) as [Z _].
  destruct (round_half_even_spec q') as [Z' _].
  apply whole_numbers_close.
  assert (P30 : 2 ^ 30 = 1073741824) by (simpl; lra).
  assert (E12 : 1 / 10 ^ 12 = / 1000000000000) by (simpl; lra).
  rewrite P30 in B. rewrite E12 in *.
  assert (Bq : Rabs (share * T / p) <= 1073741824).
  { unfold Rdiv. rewrite !Rabs_mult, Rabs_inv, (Rabs_right share), (Rabs_right p) by lra.
    apply (Rmult_le_reg_r p); [exact Pp|].
    rewrite !Rmult_assoc, Rinv_l, Rmult_1_r by lra.
    pose proof (Rabs_pos T). nra. }
  assert (D : Rabs (q - q') <= 1 / 100).
  { rewrite Eq, Eq'.
    replace (share * T / p * f - share * T / p * f') with (share * T / p * (f - f')) by ring.
    rewrite Rabs_mult.
    assert (Rabs (f - f') <= 3 / 1000000000000) by (apply Rabs_le; lra).
    pose proof (Rabs_pos (share * T / p)). pose proof (Rabs_pos (f - f')). nra. }
  replace (IZR (round_half_even q) - IZR (round_half_even q'))
    with ((IZR (round_half_even q) - q) + (q - q') + - (IZR (round_half_even q') - q'))
    by ring.
  eapply Rle_lt_trans; [apply Rabs_triang|].
  eapply Rle_lt_trans; [apply Rplus_le_compat_r, Rabs_triang|].
  rewrite Rabs_Ropp. lra.
Qed.

(** C1, as binary64 has it.  Of positive current weights, with the target
    beta, the current beta, the weights, the total and the prices between
    [2^-100] and [2^100] in magnitude and at most 1024 tickers: each
    adjusted weight is its current weight over their sum to within 1e-9;
    two target betas give adjusted weights within 1e-9 of each other; and,
    where the total buys at most [2^30] shares of a ticker, new share
    counts, one for each ticker, that differ by at most one share. *)
Theorem C1_target_beta_cancels (rnd : R -> R) (t t' cb T total total' : R)
    (cw prices : list R) :
  rounding rnd ->
  magnitude 100 t -> magnitude 100 t' -> magnitude 100 cb -> magnitude 100 T ->
  Forall (fun w => 0 < w /\ magnitude 100 w) cw -> (length cw <= 1024)%nat ->
  Forall (fun p => 0 < p /\ magnitude 100 p /\ Rabs T <= 2 ^ 30 * p) prices ->
  length prices = length cw ->
  summed rnd (new_weights_fl rnd t cb cw) total ->
  summed rnd (new_weights_fl rnd t' cb cw) total' ->
  Forall2 (fun a w => Rabs (a - w / Rsum cw) <= 1 / 10 ^ 9)
    (normalized_fl rnd total (new_weights_fl rnd t cb cw)) cw
  /\ Forall2 (fun a a' => Rabs (a - a') <= 1 / 10 ^ 9)
       (normalized_fl rnd total (new_weights_fl rnd t cb cw))
       (normalized_fl rnd total' (new_weights_fl rnd t' cb cw))
  /\ length (new_shares_fl rnd T
               (normalized_fl rnd total (new_weights_fl rnd t cb cw)) prices)
     = length cw
  /\ Forall2 (fun n n' => Rabs (n - n') <= 1)
       (new_shares_fl rnd T
          (normalized_fl rnd total (new_weights_fl rnd t cb cw)) prices)
       (new_shares_fl rnd T
          (normalized_fl rnd total' (new_weights_fl rnd t' cb cw)) prices).
Proof.
  intros Hr Mt Mt' Mb MT P L Pr Lp H H'.
  pose proof (adjusted_weights_approx rnd t cb total cw Hr Mt Mb P L H) as F.
  pose proof (adjusted_weights_approx rnd t' cb total' cw Hr Mt' Mb P L H') as F'.
  assert (E9 : 1 / 10 ^ 9 = / 1000000000) by (simpl; lra).
  assert (E12 : 2 / 10 ^ 12 = / 500000000000) by (simpl; lra).
  split; [|split; [|split]].
  - assert (G : Forall2 (fun a share => Rabs (a - share) <= 1 / 10 ^ 9)
                  (normalized_fl rnd total (new_weights_fl rnd t cb cw))
                  (map (fun w => w / Rsum cw) cw)).
    { eapply Forall2_impl; [|exact F]. cbn beta. intros a s (A & Ps & _).
      apply approx_close in A; [|lia]. rewrite (Rabs_right s) in A by lra.
      rewrite E9. rewrite E12 in A. nra. }
    clear - G. remember (normalized_fl rnd total (new_weights_fl rnd t cb cw)) as nz.
    clear Heqnz. remember (Rsum cw) as W. clear HeqW.
    revert nz G. induction cw as [|w cw IH]; intros nz G; inversion G; subst;
      constructor; auto.
  - eapply Forall2_impl; [|exact (Forall2_join _ _ _ _ _ F F')].
    cbn beta. intros a a' (s & (A & Ps & _) & (A' & _ & _)).
    apply approx_close in A; [|lia]. apply approx_close in A'; [|lia].
    rewrite (Rabs_right s) in A, A' by lra. rewrite E9. rewrite E12 in A, A'.
    replace (a - a') with ((a - s) + - (a' - s)) by ring.
    eapply Rle_trans; [apply Rabs_triang|]. rewrite Rabs_Ropp. nra.
  - unfold new_shares_fl, normalized_fl, new_weights_fl.
    rewrite map2_same_length; rewrite !length_map; auto.
  - unfold new_shares_fl.
    apply (Forall2_map2_pointwise _
             (fun p => 0 < p /\ magnitude 100 p /\ Rabs T <= 2 ^ 30 * p)); [|exact Pr].
    eapply Forall2_impl; [|exact (Forall2_join _ _ _ _ _ F F')].
    cbn beta. intros a a' (s & (A & Ps & Ms) & (A' & _ & _)) p (Pp & Mp & B).
    apply (new_share_close rnd (length cw + 5) T p a a' s); auto. lia.
Qed.


(** Outside the ranges of C1 and C8 the scaled weights underflow or
    overflow in binary64.  The smallest positive number as target beta,
    against three weights of one quarter, and the target beta [2^1023]
    against a current beta of one half give [nan] weights; the smallest
    positive number against the weights 0.3 and 0.7 gives the weights 0
    and 1. *)
Example extreme_target_beta64 :
  normalize64 0x1p-1074 1 [0.25; 0.25; 0.25]%float
  = [PrimFloat.nan; PrimFloat.nan; PrimFloat.nan]
  /\ normalize64 0x1p1023 0.5 [0.5; 0.5]%float = [PrimFloat.nan; PrimFloat.nan]
  /\ normalize64 0x1p-1074 1 [0x1.3333333333333p-2; 0x1.6666666666666p-1]%float
     = [0; 1]%float.
Proof. repeat split; vm_compute; reflexivity. Qed.

(** ** Without rounding, the rounded lines are the program's *)

Lemma summed_exact l r : summed no_rounding l r -> r = Rsum l.
Proof.
  induction 1 as [x | l1 l2 a b _ IH1 _ IH2 | l l' a P _ IH].
  - simpl. lra.
  - rewrite Rsum_app. unfold no_rounding. lra.
  - rewrite IH. now apply Rsum_perm.
Qed.

Lemma rounded_lines_agree (t b : R) cw :
  b <> 0 -> Rsum (new_weights_fl no_rounding t b cw) <> 0 ->
  normalize (Fin t) (Fin b) (map Fin cw)
  = map Fin (normalized_fl no_rounding (Rsum (new_weights_fl no_rounding t b cw))
               (new_weights_fl no_rounding t b cw)).
Proof.
  intros Hb Hs. unfold normalize, normalized_fl, new_weights_fl, no_rounding in *.
  cbv zeta. rewrite np_div_Fin by assumption.
  replace (map (fun w => np_mul w (Fin (t / b))) (map Fin cw))
    with (map Fin (map (fun w => w * (t / b)) cw))
    by (rewrite !map_map; reflexivity).
  rewrite np_sum_Fin. now apply map_div_Fin.
Qed.

Lemma magnitude_two k : (1 <= k)%nat -> magnitude k 2.
Proof.
  intros K. apply (magnitude_weaken 1); [exact K|].
  unfold magnitude. rewrite Rabs_right by lra. simpl. lra.
Qed.


Lemma unit_weights : Forall (fun w => 0 < w /\ magnitude 100 w) [1; 1].
Proof.
  repeat (constructor; [split; [lra | apply magnitude_one]|]). constructor.
Qed.

Lemma unit_prices :
  Forall (fun p => 0 < p /\ magnitude 100 p /\ Rabs 2 <= 2 ^ 30 * p) [1; 1].
Proof.
  assert (B : Rabs 2 <= 2 ^ 30 * 1) by (rewrite Rabs_right by lra; simpl; lra).
  repeat (constructor; [split; [lra | split; [apply magnitude_one | exact B]]|]).
  constructor.
Qed.

Lemma C1_witness :
  Forall2 (fun a w => Rabs (a - w / Rsum [1; 1]) <= 1 / 10 ^ 9)
    (normalized_fl no_rounding (1 * (1 / 1) + 1 * (1 / 1))
       (new_weights_fl no_rounding 1 1 [1; 1])) [1; 1]
  /\ Forall2 (fun a a' => Rabs (a - a') <= 1 / 10 ^ 9)
       (normalized_fl no_rounding (1 * (1 / 1) + 1 * (1 / 1))
          (new_weights_fl no_rounding 1 1 [1; 1]))
       (normalized_fl no_rounding (1 * (2 / 1) + 1 * (2 / 1))
          (new_weights_fl no_rounding 2 1 [1; 1]))
  /\ length (new_shares_fl no_rounding 2
               (normalized_fl no_rounding (1 * (1 / 1) + 1 * (1 / 1))
                  (new_weights_fl no_rounding 1 1 [1; 1])) [1; 1])
     = length [1; 1]
  /\ Forall2 (fun n n' => Rabs (n - n') <= 1)
       (new_shares_fl no_rounding 2
          (normalized_fl no_rounding (1 * (1 / 1) + 1 * (1 / 1))
             (new_weights_fl no_rounding 1 1 [1; 1])) [1; 1])
       (new_shares_fl no_rounding 2
          (normalized_fl no_rounding (1 * (2 / 1) + 1 * (2 / 1))
             (new_weights_fl no_rounding 2 1 [1; 1])) [1; 1]).
Proof.
  apply (C1_target_beta_cancels no_rounding 1 2 1 2
           (1 * (1 / 1) + 1 * (1 / 1)) (1 * (2 / 1) + 1 * (2 / 1)) [1; 1] [1; 1]).
  - exact rounding_exact.
  - apply magnitude_one.
  - apply magnitude_two. lia.
  - apply magnitude_one.
  - apply magnitude_two. lia.
  - exact unit_weights.
  - simpl. lia.
  - exact unit_prices.
  - reflexivity.
  - exact (summed_add no_rounding [_] [_] _ _ (summed_one _ _) (summed_one _ _)).
  - exact (summed_add no_rounding [_] [_] _ _ (summed_one _ _) (summed_one _ _)).
Defined.

(** C1 fails in binary64.  One share each of a ticker at 8 and one at 4,
    both of beta 1, against a total of 150: the current beta is not zero;
    the target beta 1 gives the adjusted weights 0.66666666666666674 and
    0.33333333333333337 and the new share counts 13 and 13, the target
    beta 3 the adjusted weights 0.66666666666666663 and
    0.33333333333333331 and the new share counts 12 and 12.  And with the
    weights 0.5 and -0.5, which sum to zero, the target betas 1 and -1
    give infinite adjusted weights of opposite signs. *)
Lemma C1_counterexample :
  (np_dot64 [1; 1]%float (current_weights64 150 [8; 4]%float) =? 0)%float = false
  /\ snd (rebalance64 [8; 4]%float [1; 1]%float [8; 4]%float 150 1) = [13; 13]%float
  /\ snd (rebalance64 [8; 4]%float [1; 1]%float [8; 4]%float 150 3) = [12; 12]%float
  /\ snd (fst (rebalance64 [8; 4]%float [1; 1]%float [8; 4]%float 150 1))
     = [0x1.5555555555556p-1; 0x1.5555555555556p-2]%float
  /\ snd (fst (rebalance64 [8; 4]%float [1; 1]%float [8; 4]%float 150 3))
     = [0x1.5555555555555p-1; 0x1.5555555555555p-2]%float
  /\ normalize64 1 0.5 [0.5; -0.5]%float = [infinity; neg_infinity]
  /\ normalize64 (-1) 0.5 [0.5; -0.5]%float = [neg_infinity; infinity].
Proof. repeat split; vm_compute; reflexivity. Qed.


(** * The rebalancer on the market *)

Lemma current_beta_A : current_beta_of (Fin 20) inputs_A = ret (Fin (1 / 2)).
Proof.
  unfold current_beta_of, np_dot, inputs_A.
  cbn [positions betas dict_values map snd length Nat.eqb].
  rewrite np_div_Fin by lra. cbn [map2 np_mul]. unfold np_sum.
  cbn [fold_left np_add]. unfold ret. do 2 f_equal. lra.
Qed.

Lemma current_beta_B : current_beta_of (Fin 500) inputs_B = ret (Fin 0).
Proof.
  unfold current_beta_of, np_dot, inputs_B.
  cbn [positions betas dict_values map snd length Nat.eqb].
  rewrite np_div_Fin by lra. cbn [map2 np_mul]. unfold np_sum.
  cbn [fold_left np_add]. unfold ret. do 2 f_equal. lra.
Qed.

Lemma positions_A_positive : Forall positive (dict_values (positions inputs_A)).
Proof. repeat constructor. eexists. split; [reflexivity | lra]. Qed.

Lemma run_A target :
  portfolio_beta_weighting market holding_A (Fin 20) target = ret (result_A target).
Proof.
  destruct (inputs_run market _ _ (Fin 20) market_inputs_A)
    as (cb & pc & bc & Hcb & Hpc & Hbc & _ & R).
  fold inputs_A in Hcb. rewrite current_beta_A in Hcb. injection Hcb as <-.
  injection Hpc as <-. injection Hbc as <-.
  rewrite R. unfold current_weights. cbn [positions dict_values map snd].
  rewrite np_div_Fin by lra. reflexivity.
Qed.

Lemma result_A_zero_target :
  Adjusted_Weight (result_A (Fin 0)) = [NaN] /\ New_Shares (result_A (Fin 0)) = [NaN].
Proof.
  unfold result_A. cbn [Adjusted_Weight New_Shares].
  rewrite normalize_zero_target by lra. split; reflexivity.
Qed.

Lemma C2_witness :
  exists res,
    portfolio_beta_weighting market holding_B (Fin 500) (Fin 1) = ret res
    /\ Forall (fun w => w = NaN) (Adjusted_Weight res)
    /\ Forall (fun n => n = NaN) (New_Shares res).
Proof.
  apply (C2_zero_portfolio_beta market holding_B (Fin 500) (Fin 1) inputs_B).
  - exact market_inputs_B.
  - exact current_beta_B.
Defined.

(** C2 fails on ten shares of "B": the current portfolio beta is zero and
    a result is returned. *)
Lemma C2_counterexample :
  portfolio_inputs market holding_B = ret inputs_B
  /\ current_beta_of (Fin 500) inputs_B = ret (Fin 0)
  /\ ~ raised (portfolio_beta_weighting market holding_B (Fin 500) (Fin 1)).
Proof.
  split; [exact market_inputs_B|]. split; [exact current_beta_B|].
  destruct (zero_beta_run market holding_B (Fin 500) (Fin 1) inputs_B
              market_inputs_B current_beta_B) as (res & R & _).
  intros [e H]. rewrite R in H. discriminate.
Qed.

Lemma C5_witness :
  get_historical_data no_prices ["A"%string] "2020-01-01" "2023-01-01"
  = raise (ValueError neither_msg)
  /\ exists df,
       dict_get "Close"
         (market (["A"%string] ++ ["SPY"%string]) (Some ("2020-01-01", "2023-01-01")%string))
       = ret df
       /\ get_historical_data market ["A"%string] "2020-01-01" "2023-01-01"
          = ret (dropna df).
Proof.
  split.
  - apply (proj1 (proj2 (proj2 (proj1
      (C5_price_field_selection no_prices holding_A ["A"%string]
         "2020-01-01" "2023-01-01"))))); reflexivity.
  - apply (proj1 (proj2 (proj1
      (C5_price_field_selection market holding_A ["A"%string]
         "2020-01-01" "2023-01-01")))); reflexivity.
Defined.


Lemma holding_A_keys : NoDup (dict_keys holding_A).
Proof. repeat constructor. intros []. Qed.



Lemma C10_witness :
  let quotients :=
    map2 np_div (map (fun w => np_mul w (Fin 20)) (Adjusted_Weight (result_A (Fin 1))))
         (Current_Price (result_A (Fin 1))) in
  New_Shares (result_A (Fin 1)) = map np_rint quotients
  /\ (forall i q,
        nth_error quotients i = Some (Fin q) ->
        exists z : Z,
          nth_error (New_Shares (result_A (Fin 1))) i = Some (Fin (IZR z))
          /\ Rabs (IZR z - q) <= 1 / 2
          /\ (Rabs (IZR z - q) = 1 / 2 -> Z.even z = true)
          /\ (0 <= q -> (0 <= z)%Z))
  /\ (forall i a,
        nth_error quotients i = Some a -> np_isfinite a = false ->
        nth_error (New_Shares (result_A (Fin 1))) i = Some a).
Proof.
  apply (C10_new_shares market holding_A (Fin 20) (Fin 1) (result_A (Fin 1))).
  apply run_A.
Defined.

(** C10 fails on a target beta of zero: the one new share count is [nan],
    which is no whole number. *)
Lemma C10_counterexample :
  portfolio_beta_weighting market holding_A (Fin 20) (Fin 0) = ret (result_A (Fin 0))
  /\ New_Shares (result_A (Fin 0)) = [NaN]
  /\ ~ Forall integral (New_Shares (result_A (Fin 0))).
Proof.
  split; [apply run_A|]. destruct result_A_zero_target as [_ E].
  split; [exact E|]. rewrite E. intros H. inversion H as [|? ? [z Hz] _]. discriminate.
Qed.

(** * Worked examples *)

Lemma round_half_even_IZR (z : Z) : round_half_even (IZR z) = z.
Proof.
  unfold round_half_even. rewrite ZfloorZ.
  now rewrite Rcompare_lt by lra.
Qed.

(** [np.round(2.5)] is 2 and [np.round(3.5)] is 4. *)
Example round_ties_to_even :
  np_rint (Fin (5 / 2)) = Fin 2 /\ np_rint (Fin (7 / 2)) = Fin 4.
Proof.
  assert (F2 : Zfloor (5 / 2) = 2%Z) by (apply Zfloor_eq; lra).
  assert (F3 : Zfloor (7 / 2) = 3%Z) by (apply Zfloor_eq; lra).
  unfold np_rint, round_half_even. rewrite F2, F3.
  replace (5 / 2 - 2) with (1 / 2) by lra.
  replace (7 / 2 - 3) with (1 / 2) by lra.
  rewrite Rcompare_refl. split; reflexivity.
Qed.

(** Ten shares of "A" at a price of 1, a total of 20 and the default target
    beta of 1: the weight one half becomes the adjusted weight 1, and the
    new share count is 20. *)
Example run_A_default_target :
  portfolio_beta_weighting market holding_A (Fin 20) (Fin 1) = ret (result_A (Fin 1))
  /\ Current_Weight (result_A (Fin 1)) = [Fin (10 * 1 / 20)]
  /\ Adjusted_Weight (result_A (Fin 1)) = [Fin 1]
  /\ New_Shares (result_A (Fin 1)) = [Fin 20].
Proof.
  split; [apply run_A|]. split; [reflexivity|].
  assert (E : normalize (Fin 1) (Fin (1 / 2)) (map Fin [10 * 1 / 20]) = [Fin 1]).
  { rewrite normalize_Fin by (simpl; lra). simpl. do 2 f_equal. field. }
  unfold result_A. cbn [Adjusted_Weight New_Shares]. rewrite E.
  split; [reflexivity|].
  unfold share_counts. cbn [map map2 np_mul]. rewrite np_div_Fin by lra.
  replace (1 * 20 / 1) with 20 by lra.
  unfold np_rint. now rewrite round_half_even_IZR.
Qed.

(** Betas 2 and one half on equal weights: the current beta is 1.25, and
    after scaling by 0.8 and normalizing the weights are unchanged. *)
Example two_asset_scenario :
  np_dot [Fin 2; Fin (1 / 2)] [Fin (1 / 2); Fin (1 / 2)] = ret (Fin (5 / 4))
  /\ normalize (Fin 1) (Fin (5 / 4)) [Fin (1 / 2); Fin (1 / 2)]
     = [Fin (1 / 2); Fin (1 / 2)].
Proof.
  split.
  - unfold np_dot, np_sum. cbn [length Nat.eqb map2 np_mul fold_left np_add].
    unfold ret. do 2 f_equal. lra.
  - change [Fin (1 / 2); Fin (1 / 2)] with (map Fin [1 / 2; 1 / 2]).
    rewrite normalize_Fin by (simpl; lra). simpl.
    now replace (1 / 2 / (1 / 2 + (1 / 2 + 0))) with (1 / 2) by field.
Qed.

(** * Further properties of the program *)

(** * Errors of the rebalancer *)

Lemma foldM_build_success {A V} (key : A -> string) (g : A -> result V) l acc :
  Forall (fun x => exists v, g x = ret v) l ->
  exists d, foldM (build_step key g) l acc = ret d.
Proof.
  intros H. revert acc. induction H as [|x l [v Hv] _ IH]; intros acc.
  - exists acc. reflexivity.
  - cbn [foldM]. unfold build_step at 1. rewrite Hv. cbn [bind ret]. apply IH.
Qed.

Lemma foldM_build_failure {A V} (key : A -> string) (g : A -> result V)
    pre x post acc e :
  Forall (fun a => exists v, g a = ret v) pre -> g x = raise e ->
  foldM (build_step key g) (pre ++ x :: post) acc = raise e.
Proof.
  intros H G. revert acc. induction H as [|a pre [v Hv] _ IH]; intros acc.
  - cbn [app foldM]. unfold build_step at 1. now rewrite G.
  - cbn [app foldM]. unfold build_step at 1. rewrite Hv. cbn [bind ret]. apply IH.
Qed.

Lemma positions_built prices (portfolio : dict npfloat) :
  Forall (fun key => mem key (index prices) = true) (dict_keys portfolio) ->
  exists pos,
    dict_build fst
      (fun item : string * npfloat =>
         p <- series_get prices (fst item) ;; ret (np_mul (snd item) p))
      portfolio = ret pos.
Proof.
  intros H. apply foldM_build_success.
  unfold dict_keys in H. rewrite Forall_map in H.
  eapply Forall_impl; [|exact H]. cbn beta. intros [k s] M. cbn [fst snd] in *.
  unfold series_get. rewrite M. cbn [bind ret]. eauto.
Qed.

Section Errors.

Variable yf_download : list string -> option (string * string) -> Payload.

(** X3: a ticker absent from the current prices stops the rebalancer with a
    [KeyError] naming the first such ticker of the portfolio. *)
Theorem missing_price_key_error (pre post : dict npfloat) (k : string)
    (s : npfloat) (prices : Series) (total target : npfloat) :
  fetch_current_prices yf_download (pre ++ (k, s) :: post) = ret prices ->
  Forall (fun key => mem key (index prices) = true) (dict_keys pre) ->
  mem k (index prices) = false ->
  portfolio_beta_weighting yf_download (pre ++ (k, s) :: post) total target
  = raise (KeyError k).
Proof.
  intros F P M. unfold portfolio_beta_weighting, portfolio_inputs.
  rewrite F. cbn [bind ret]. unfold dict_build.
  rewrite (foldM_build_failure _ _ pre (k, s) post [] (KeyError k)).
  - reflexivity.
  - unfold dict_keys in P. rewrite Forall_map in P.
    eapply Forall_impl; [|exact P]. cbn beta. intros [k' s'] M'. cbn [fst snd] in *.
    unfold series_get. rewrite M'. cbn [bind ret]. eauto.
  - cbn [fst snd]. unfold series_get. now rewrite M.
Qed.

(** X4: when the prices are there but the historical table has no "SPY"
    column, the rebalancer stops with [KeyError "SPY"]. *)
Theorem missing_benchmark_key_error (portfolio : dict npfloat)
    (prices : Series) (data : DataFrame) (total target : npfloat) :
  fetch_current_prices yf_download portfolio = ret prices ->
  Forall (fun key => mem key (index prices) = true) (dict_keys portfolio) ->
  get_historical_data yf_download (dict_keys portfolio) "2020-01-01" "2023-01-01"
  = ret data ->
  mem "SPY" (columns data) = false ->
  portfolio_beta_weighting yf_download portfolio total target
  = raise (KeyError "SPY").
Proof.
  intros F P G M. unfold portfolio_beta_weighting, portfolio_inputs.
  rewrite F. cbn [bind ret]. destruct (positions_built prices portfolio P) as [pos B].
  rewrite B. cbn [bind ret]. rewrite G. cbn [bind ret].
  unfold calculate_returns. cbn [bind ret]. unfold df_col.
  cbn [dropna df_log df_div columns]. now rewrite M.
Qed.

(** X2: a price field without any row stops the rebalancer with an
    [IndexError]. *)
Theorem empty_price_table_index_error (portfolio : dict npfloat)
    (df : DataFrame) (total target : npfloat) :
  let data := yf_download (dict_keys portfolio) None in
  (has_field "Adj Close" data = true /\ dict_get "Adj Close" data = ret df)
  \/ (has_field "Adj Close" data = false /\ has_field "Close" data = true
      /\ dict_get "Close" data = ret df) ->
  rows df = [] ->
  portfolio_beta_weighting yf_download portfolio total target
  = raise (IndexError "single positional indexer is out-of-bounds").
Proof.
  intros data H E. unfold portfolio_beta_weighting, portfolio_inputs, fetch_current_prices.
  fold data. destruct H as [[A D] | (A & C & D)].
  - rewrite A, D. cbn [bind ret]. unfold iloc_last. now rewrite E.
  - rewrite A, C, D. cbn [bind ret]. unfold iloc_last. now rewrite E.
Qed.


(** X5: the result has one row per portfolio ticker, in the portfolio's
    order. *)
Theorem result_shape (portfolio : dict npfloat) (total target : npfloat)
    (res : RebalanceResult) :
  NoDup (dict_keys portfolio) ->
  portfolio_beta_weighting yf_download portfolio total target = ret res ->
  Ticker res = dict_keys portfolio
  /\ Current_Shares res = dict_values portfolio
  /\ length (Current_Price res) = length portfolio
  /\ length (Beta res) = length portfolio
  /\ length (Current_Weight res) = length portfolio
  /\ length (Adjusted_Weight res) = length portfolio
  /\ length (New_Shares res) = length portfolio.
Proof.
  intros N H. destruct (rebalancer_inv _ _ _ _ _ H) as [inp I].
  destruct (inputs_run yf_download _ _ total I) as (cb & pc & bc & _ & Hpc & Hbc & Lpc & R).
  rewrite R in H. injection H as <-.
  destruct (inputs_positions _ _ _ N I) as (pc' & Hpc' & P).
  rewrite Hpc in Hpc'. injection Hpc' as <-.
  assert (Lbc : length bc = length portfolio).
  { rewrite (mapM_length _ _ _ Hbc). apply length_map. }
  assert (Lcw : length (current_weights total inp) = length portfolio).
  { unfold current_weights. rewrite length_map, P.
    rewrite map2_same_length; unfold dict_values; rewrite length_map; auto. }
  cbn [Ticker Current_Shares Current_Price Beta Current_Weight Adjusted_Weight New_Shares].
  repeat split; auto.
  - unfold normalize. cbv zeta. now rewrite !length_map.
  - unfold share_counts, normalize. cbv zeta. rewrite length_map.
    rewrite map2_same_length; rewrite !length_map; congruence.
Qed.

End Errors.

(** * More on the returns calculator *)

Lemma length_filter_le {A} (f : A -> bool) l : (length (filter f l) <= length l)%nat.
Proof. induction l as [|a l IH]; simpl; [lia|]. destruct (f a); simpl; lia. Qed.

(** X10: whatever the table, the returns keep its columns, hold no [nan]
    under them, and are fewer than the table's rows when the table has a
    column and a row. *)
Theorem returns_invariants (df out : DataFrame) :
  calculate_returns df = ret out ->
  columns out = columns df
  /\ (forall r c, In r (rows out) -> In c (columns out) -> np_isnan (r c) = false)
  /\ (length (rows out) <= length (rows df))%nat
  /\ (columns df <> [] -> rows df <> [] ->
      (length (rows out) < length (rows df))%nat).
Proof.
  intros H.
  assert (Strict : columns df <> [] -> rows df <> [] ->
                   (length (rows out) < length (rows df))%nat).
  { intros C N. destruct df as [cols [|r0 rest]]; cbn [rows columns] in *; [congruence|].
    rewrite calculate_returns_rows in H. injection H as <-. cbn [rows filter].
    rewrite first_row_dropped by assumption.
    pose proof (length_filter_le (row_notna cols) (consecutive_returns r0 rest)) as F.
    rewrite consecutive_returns_length in F. simpl. lia. }
  injection H as <-. cbn [columns rows dropna df_log df_div shift1] in *.
  split; [reflexivity|]. split; [|split; [|exact Strict]].
  - intros r c Hr Hc. apply filter_In in Hr as [_ Hr].
    unfold row_notna in Hr. rewrite forallb_forall in Hr.
    specialize (Hr c Hc). now destruct (np_isnan (r c)).
  - etransitivity; [apply length_filter_le|]. rewrite length_map.
    destruct (rows df) as [|r0 rest]; [simpl; lia|].
    rewrite map2_same_length; [lia|].
    cbn [length]. f_equal. clear. revert r0.
    induction rest as [|r1 rest IH]; intros r0; [reflexivity|].
    change (removelast (r0 :: r1 :: rest)) with (r0 :: removelast (r1 :: rest)).
    cbn [length]. f_equal. apply IH.
Qed.

(** * What the rebalancer computes *)



(** A division by a value that is not finite gives zero or [nan]. *)
Lemma np_div_by_nonfinite a b :
  np_isfinite b = false -> np_div a b = Fin 0 \/ np_div a b = NaN.
Proof. destruct b; [discriminate| | |]; intros _; destruct a; cbn; auto. Qed.

Lemma normalize_infinite_weights target cb cw :
  np_isfinite cb = false -> Forall (fun w => w = PInf) cw ->
  Forall (fun w => w = NaN) (normalize target cb cw).
Proof.
  intros F H. unfold normalize. cbv zeta.
  apply Forall_map, Forall_map. eapply Forall_impl; [|exact H].
  cbn beta. intros w ->.
  destruct (np_div_by_nonfinite target cb F) as [-> | ->].
  - cbn [np_mul np_sign]. rewrite Rcompare_refl. reflexivity.
  - reflexivity.
Qed.

Lemma mapM_ext_in {A B} (f g : A -> result B) l :
  (forall a, In a l -> f a = g a) -> mapM f l = mapM g l.
Proof.
  induction l as [|a l IH]; intros H; [reflexivity|].
  cbn [mapM]. rewrite (H a) by now left.
  rewrite IH; [reflexivity|]. intros x Hx. apply H. now right.
Qed.

Lemma dict_get_head {V} (k : string) (v : V) d : dict_get k ((k, v) :: d) = ret v.
Proof. cbn [dict_get]. now rewrite String.eqb_refl. Qed.

Lemma dict_get_tail {V} (k k' : string) (v : V) d :
  k <> k' -> dict_get k ((k', v) :: d) = dict_get k d.
Proof.
  intros N. cbn [dict_get]. destruct (String.eqb k k') eqn:E; [|reflexivity].
  apply String.eqb_eq in E. contradiction.
Qed.

(** Looking up, in order, the keys a dictionary was built from gives back
    the values. *)
Lemma mapM_get_combine {V} (ks : list string) (vs : list V) :
  NoDup ks -> length ks = length vs ->
  mapM (fun t => dict_get t (combine ks vs)) ks = ret vs.
Proof.
  intros N. revert vs. induction N as [|k ks Hk N IH]; intros [|v vs] L;
    try discriminate; [reflexivity|].
  injection L as L. cbn [combine mapM]. rewrite dict_get_head. cbn [bind ret].
  rewrite (mapM_ext_in _ (fun t => dict_get t (combine ks vs))).
  - now rewrite IH.
  - intros a Ha. apply dict_get_tail. intros ->. contradiction.
Qed.

Lemma mapM_nth {A B} (f : A -> result B) l bs i a :
  mapM f l = ret bs -> nth_error l i = Some a ->
  exists b, f a = ret b /\ nth_error bs i = Some b.
Proof.
  revert bs i. induction l as [|x l IH]; intros bs i H N.
  - destruct i; discriminate.
  - cbn [mapM] in H. destruct (f x) as [e|b] eqn:F; [discriminate|]. cbn [bind ret] in H.
    destruct (mapM f l) as [e|bs'] eqn:M; [discriminate|]. injection H as <-.
    destruct i as [|i].
    + injection N as <-. exists b. auto.
    + cbn [nth_error] in *. now apply (IH bs' i).
Qed.

(** ** From the positions and the holdings *)









Section Computed.

Variable yf_download : list string -> option (string * string) -> Payload.

(** X15: a total of zero raises nothing: with positive positions every
    current weight is infinite, and every adjusted weight and new share
    count is [nan]. *)
Theorem zero_total_gives_nan portfolio target inp :
  portfolio_inputs yf_download portfolio = ret inp ->
  Forall positive (dict_values (positions inp)) ->
  exists res,
    portfolio_beta_weighting yf_download portfolio (Fin 0) target = ret res
    /\ Forall (fun w => w = PInf) (Current_Weight res)
    /\ Forall (fun w => w = NaN) (Adjusted_Weight res)
    /\ Forall (fun n => n = NaN) (New_Shares res).
Proof.
  intros H P.
  destruct (inputs_run yf_download _ _ (Fin 0) H) as (cb & pc & bc & Hcb & _ & _ & _ & R).
  eexists. split; [apply R|]. cbn [Current_Weight Adjusted_Weight New_Shares].
  assert (W : Forall (fun w => w = PInf) (current_weights (Fin 0) inp)).
  { unfold current_weights. apply Forall_map. eapply Forall_impl; [|exact P].
    cbn beta. intros a (x & -> & Hx). rewrite np_div_zero. now rewrite Rcompare_gt. }
  split; [exact W|].
  assert (A : Forall (fun w => w = NaN) (normalize target cb (current_weights (Fin 0) inp))).
  { destruct (current_weights (Fin 0) inp) as [|w ws] eqn:C; [constructor|].
    apply normalize_infinite_weights; [|exact W].
    unfold current_beta_of, np_dot in Hcb. fold (current_weights (Fin 0) inp) in Hcb.
    rewrite C in Hcb. destruct (Nat.eqb _ _) eqn:L; [|discriminate].
    injection Hcb as <-. apply Nat.eqb_eq in L.
    destruct (dict_values (betas inp)) as [|x bs]; [discriminate|].
    apply np_sum_nonfinite; [discriminate|].
    assert (G : forall l m, Forall (fun w => w = PInf) m ->
                Forall (fun y => np_isfinite y = false) (map2 np_mul l m)).
    { intros l m Hm. revert l. induction Hm as [|y m -> _ IH]; intros [|z l];
        cbn [map2]; constructor; [now apply np_mul_nonfinite_r | apply IH]. }
    now apply G. }
  split; [exact A | now apply share_counts_nan].
Qed.

End Computed.

Section BetaColumn.

Variable yf_download : list string -> option (string * string) -> Payload.

Lemma beta_column_run portfolio total target res :
  NoDup (dict_keys portfolio) ->
  portfolio_beta_weighting yf_download portfolio total target = ret res ->
  exists returns spy,
    historical_returns yf_download portfolio = ret returns
    /\ df_col returns "SPY" = ret spy
    /\ mapM (fun t => asset <- df_col returns t ;;
                      b <- calculate_beta asset spy ;;
                      ret (fst b))
            (dict_keys portfolio)
       = ret (Beta res).
Proof.
  intros N H. destruct (rebalancer_inv _ _ _ _ _ H) as [inp I].
  destruct (inputs_run yf_download _ _ total I) as (cb & pc & bc & _ & _ & Hbc & _ & R).
  rewrite R in H. injection H as <-. cbn [Beta].
  unfold portfolio_inputs in I.
  bind_inv I. bind_inv I. bind_inv I. bind_inv I. bind_inv I. bind_inv I.
  injection I as <-. cbn [betas] in Hbc.
  exists d1, l. unfold historical_returns. rewrite E1. cbn [bind ret].
  split; [exact E2|]. split; [exact E3|].
  apply dict_build_nodup in E4 as (vs & M & ->); [|now rewrite map_id].
  rewrite map_id in *.
  rewrite mapM_get_combine in Hbc by (auto; symmetry; apply (mapM_length _ _ _ M)).
  injection Hbc as <-. exact M.
Qed.

(** X6: each entry of the Beta column is the beta of that ticker's return
    column regressed on the "SPY" return column of the historical table. *)
Theorem beta_column_per_ticker portfolio total target res :
  NoDup (dict_keys portfolio) ->
  portfolio_beta_weighting yf_download portfolio total target = ret res ->
  exists returns spy,
    historical_returns yf_download portfolio = ret returns
    /\ df_col returns "SPY" = ret spy
    /\ mapM (fun t => asset <- df_col returns t ;;
                      b <- calculate_beta asset spy ;;
                      ret (fst b))
            (dict_keys portfolio)
       = ret (Beta res).
Proof. apply beta_column_run. Qed.

(** X7: the benchmark itself, held in the portfolio, gets beta 1 when its
    return column is finite and has at least two rows. *)
Theorem benchmark_holding_has_beta_one portfolio total target res returns
    (xs : list R) (i : nat) :
  NoDup (dict_keys portfolio) ->
  portfolio_beta_weighting yf_download portfolio total target = ret res ->
  historical_returns yf_download portfolio = ret returns ->
  df_col returns "SPY" = ret (map Fin xs) ->
  (2 <= length xs)%nat ->
  nth_error (Ticker res) i = Some "SPY"%string ->
  nth_error (Beta res) i = Some (Fin 1).
Proof.
  intros N H HR HS L Hi.
  destruct (beta_column_run _ _ _ _ N H) as (returns' & spy & HR' & HS' & M).
  rewrite HR in HR'. injection HR' as <-. rewrite HS in HS'. injection HS' as <-.
  assert (T : Ticker res = dict_keys portfolio).
  { destruct (rebalancer_inv _ _ _ _ _ H) as [inp I].
    destruct (inputs_run yf_download _ _ total I) as (cb & pc & bc & _ & _ & _ & _ & R).
    rewrite R in H. now injection H as <-. }
  rewrite T in Hi. destruct (mapM_nth _ _ _ _ _ M Hi) as (b & G & Nb).
  rewrite Nb. do 2 f_equal. rewrite HS in G. cbn [bind ret] in G.
  assert (V : 0 < variance xs).
  { pose proof (variance_nonneg xs) as V0.
    destruct (Req_dec_T (variance xs) 0) as [Z|Z]; [|lra]. exfalso.
    unfold calculate_beta in G.
    rewrite linregress_constant in G; auto; [discriminate|].
    intros ->. simpl in L. lia. }
  rewrite calculate_beta_self in G by exact V. cbn [bind ret fst] in G.
  now injection G as <-.
Qed.

End BetaColumn.

(** * A zero price *)

Lemma consecutive_returns_In r0 rest l1 prev cur l2 :
  r0 :: rest = l1 ++ prev :: cur :: l2 ->
  In (log_ratio prev cur) (consecutive_returns r0 rest).
Proof.
  revert r0 rest. induction l1 as [|a l1 IH]; intros r0 rest E.
  - injection E as -> ->. now left.
  - injection E as -> E. destruct rest as [|r1 rest'].
    + destruct l1; discriminate.
    + cbn [consecutive_returns]. right. now apply IH.
Qed.

(** X11: a row whose prices are zero or positive, after a row of positive
    prices, is not dropped: under a zero price its return is [-inf]. *)
Theorem zero_price_gives_infinite_return (df out : DataFrame)
    (l1 l2 : list (string -> npfloat)) (prev cur : string -> npfloat) :
  calculate_returns df = ret out ->
  rows df = l1 ++ prev :: cur :: l2 ->
  (forall c, In c (columns df) -> positive (prev c)) ->
  (forall c, In c (columns df) -> exists q, cur c = Fin q /\ 0 <= q) ->
  In (log_ratio prev cur) (rows out)
  /\ forall c, In c (columns df) -> cur c = Fin 0 -> log_ratio prev cur c = NInf.
Proof.
  intros H E P Q.
  assert (Z : forall c, In c (columns df) -> cur c = Fin 0 ->
                        log_ratio prev cur c = NInf).
  { intros c Hc C. destruct (P c Hc) as (p & Hp & Pp). unfold log_ratio.
    rewrite C, Hp, np_div_Fin by lra. unfold np_log.
    replace (0 / p) with 0 by (field; lra). now rewrite Rcompare_refl. }
  split; [|exact Z].
  destruct df as [cols rws]. cbn [rows columns] in *.
  destruct rws as [|r0 rest]; [destruct l1; discriminate|].
  rewrite calculate_returns_rows in H. injection H as <-. cbn [rows filter].
  assert (F : In (log_ratio prev cur)
                 (filter (row_notna cols) (consecutive_returns r0 rest))).
  { apply filter_In. split.
    - now apply (consecutive_returns_In r0 rest l1 prev cur l2).
    - unfold row_notna. apply forallb_forall. intros c Hc.
      destruct (P c Hc) as (p & Hp & Pp). destruct (Q c Hc) as (q & Hq & Pq).
      unfold log_ratio. rewrite Hp, Hq, np_div_Fin by lra. unfold np_log.
      destruct (Rcompare_spec (q / p) 0) as [C|C|C]; try reflexivity.
      exfalso. assert (0 <= q / p); [|lra].
      apply Rmult_le_pos; [lra|]. apply Rlt_le. now apply Rinv_0_lt_compat. }
  destruct (row_notna cols (fun c => np_log (np_div (r0 c) NaN)));
    [now right | exact F].
Qed.

Lemma historical_returns_SPY :
  historical_returns spy_market holding_SPY = ret returns_SPY.
Proof.
  unfold historical_returns.
  change (get_historical_data spy_market (dict_keys holding_SPY) "2020-01-01" "2023-01-01")
    with (ret (mkDataFrame ["SPY"%string] market_rows)).
  cbn [bind ret].
  now rewrite market_returns by (try discriminate; repeat constructor; auto).
Qed.

Lemma spy_column_of_returns :
  df_col returns_SPY "SPY" = ret (map Fin spy_log_returns).
Proof.
  change (df_col returns_SPY "SPY")
    with (ret [log_ratio (price_row 1 50 1) (price_row 2 50 2) "SPY"%string;
               log_ratio (price_row 2 50 2) (price_row 1 50 1) "SPY"%string]).
  now rewrite spy_column.
Qed.

Lemma market_inputs_SPY : portfolio_inputs spy_market holding_SPY = ret inputs_SPY.
Proof.
  unfold portfolio_inputs.
  change (fetch_current_prices spy_market holding_SPY)
    with (ret (mkSeries ["SPY"%string] (price_row 1 50 1))).
  cbn [bind ret]. set (g := fun item : string * npfloat => _).
  change (dict_build fst g holding_SPY)
    with (ret [("SPY"%string, Fin (1 * 1))] : result (dict npfloat)).
  cbn [bind ret].
  change (get_historical_data spy_market (dict_keys holding_SPY) "2020-01-01" "2023-01-01")
    with (ret (mkDataFrame ["SPY"%string] market_rows)).
  cbn [bind ret].
  rewrite market_returns by (try discriminate; repeat constructor; auto).
  cbn [bind ret]. fold returns_SPY. rewrite spy_column_of_returns.
  cbn [bind ret].
  unfold dict_build, holding_SPY. cbn [dict_keys map fst foldM]. unfold build_step.
  rewrite spy_column_of_returns. cbn [bind ret].
  rewrite calculate_beta_self by apply spy_variance.
  reflexivity.
Qed.

Lemma holding_SPY_keys : NoDup (dict_keys holding_SPY).
Proof. repeat constructor. intros []. Qed.

(** X16: a table that [get_historical_data] returns is the price field it
    chose less some rows: it has the field's columns, each of its rows is
    a row of the field, and no entry under its columns is [nan]. *)
Theorem historical_data_has_no_nan
    (yf_download : list string -> option (string * string) -> Payload)
    (tickers : list string) (s e : string) (out : DataFrame) :
  get_historical_data yf_download tickers s e = ret out ->
  (exists df,
     (dict_get "Adj Close" (yf_download (tickers ++ ["SPY"%string]) (Some (s, e)))
      = ret df
      \/ dict_get "Close" (yf_download (tickers ++ ["SPY"%string]) (Some (s, e)))
         = ret df)
     /\ columns out = columns df
     /\ incl (rows out) (rows df))
  /\ forall r c, In r (rows out) -> In c (columns out) -> np_isnan (r c) = false.
Proof.
  unfold get_historical_data. intros H.
  assert (D : forall df, out = dropna df ->
              columns out = columns df /\ incl (rows out) (rows df)
              /\ forall r c, In r (rows out) -> In c (columns out) ->
                             np_isnan (r c) = false).
  { intros df ->. cbn [dropna columns rows]. split; [reflexivity|]. split.
    - intros r Hr. now apply filter_In in Hr.
    - intros r c Hr Hc. apply filter_In in Hr as [_ Hr].
      unfold row_notna in Hr. rewrite forallb_forall in Hr.
      specialize (Hr c Hc). now destruct (np_isnan (r c)). }
  destruct (has_field "Adj Close" _).
  - bind_inv H. injection H as <-. destruct (D d eq_refl) as (C & I & N).
    split; [exists d; auto | exact N].
  - destruct (has_field "Close" _); [|discriminate].
    bind_inv H. injection H as <-. destruct (D d eq_refl) as (C & I & N).
    split; [exists d; auto | exact N].
Qed.

(** * The further properties on the market *)


Lemma empty_price_table_index_error_witness :
  portfolio_beta_weighting empty_market holding_A (Fin 1) (Fin 1)
  = raise (IndexError "single positional indexer is out-of-bounds").
Proof.
  apply (empty_price_table_index_error empty_market holding_A
           (mkDataFrame ["A"%string] [])).
  - right. repeat split; reflexivity.
  - reflexivity.
Defined.

Lemma missing_price_key_error_witness :
  portfolio_beta_weighting fixed_market ([] ++ ("B"%string, Fin 1) :: [])
    (Fin 1) (Fin 1)
  = raise (KeyError "B").
Proof.
  apply (missing_price_key_error fixed_market [] [] "B" (Fin 1)
           (mkSeries ["A"%string] (price_row 1 50 1))).
  - reflexivity.
  - constructor.
  - reflexivity.
Defined.

Lemma missing_benchmark_key_error_witness :
  portfolio_beta_weighting fixed_market holding_A (Fin 1) (Fin 1)
  = raise (KeyError "SPY").
Proof.
  apply (missing_benchmark_key_error fixed_market holding_A
           (mkSeries ["A"%string] (price_row 1 50 1))
           (mkDataFrame ["A"%string] market_rows)).
  - reflexivity.
  - repeat constructor.
  - reflexivity.
  - reflexivity.
Defined.

Lemma result_shape_witness :
  Ticker (result_A (Fin 1)) = dict_keys holding_A
  /\ Current_Shares (result_A (Fin 1)) = dict_values holding_A
  /\ length (Current_Price (result_A (Fin 1))) = length holding_A
  /\ length (Beta (result_A (Fin 1))) = length holding_A
  /\ length (Current_Weight (result_A (Fin 1))) = length holding_A
  /\ length (Adjusted_Weight (result_A (Fin 1))) = length holding_A
  /\ length (New_Shares (result_A (Fin 1))) = length holding_A.
Proof.
  apply (result_shape market holding_A (Fin 20) (Fin 1) (result_A (Fin 1))).
  - exact holding_A_keys.
  - apply run_A.
Defined.

Lemma beta_column_per_ticker_witness :
  exists returns spy,
    historical_returns market holding_A = ret returns
    /\ df_col returns "SPY" = ret spy
    /\ mapM (fun t => asset <- df_col returns t ;;
                      b <- calculate_beta asset spy ;;
                      ret (fst b))
            (dict_keys holding_A)
       = ret (Beta (result_A (Fin 1))).
Proof.
  apply (beta_column_per_ticker market holding_A (Fin 20) (Fin 1) (result_A (Fin 1))).
  - exact holding_A_keys.
  - apply run_A.
Defined.

Lemma benchmark_holding_has_beta_one_witness :
  exists res,
    portfolio_beta_weighting spy_market holding_SPY (Fin 1) (Fin 1) = ret res
    /\ nth_error (Beta res) 0 = Some (Fin 1).
Proof.
  destruct (inputs_run spy_market _ _ (Fin 1) market_inputs_SPY)
    as (cb & pc & bc & _ & _ & _ & _ & R).
  eexists. split; [apply (R (Fin 1))|].
  apply (benchmark_holding_has_beta_one spy_market holding_SPY (Fin 1) (Fin 1) _
           returns_SPY spy_log_returns 0%nat).
  - exact holding_SPY_keys.
  - apply (R (Fin 1)).
  - exact historical_returns_SPY.
  - exact spy_column_of_returns.
  - simpl. lia.
  - reflexivity.
Defined.

Lemma returns_invariants_witness :
  columns (mkDataFrame ["A"%string] []) = columns one_row
  /\ (forall r c, In r (rows (mkDataFrame ["A"%string] [])) ->
                  In c (columns (mkDataFrame ["A"%string] [])) ->
                  np_isnan (r c) = false)
  /\ (length (rows (mkDataFrame ["A"%string] [])) <= length (rows one_row))%nat
  /\ (columns one_row <> [] -> rows one_row <> [] ->
      (length (rows (mkDataFrame ["A"%string] [])) < length (rows one_row))%nat).
Proof.
  apply (returns_invariants one_row (mkDataFrame ["A"%string] [])). reflexivity.
Defined.

Lemma zero_price_gives_infinite_return_witness :
  In (log_ratio (fun _ => Fin 1) (fun _ => Fin 0))
     (rows (dropna (df_log (df_div zero_price_table (shift1 zero_price_table)))))
  /\ forall c, In c (columns zero_price_table) ->
       (fun _ : string => Fin 0) c = Fin 0 ->
       log_ratio (fun _ => Fin 1) (fun _ => Fin 0) c = NInf.
Proof.
  apply (zero_price_gives_infinite_return zero_price_table
           (dropna (df_log (df_div zero_price_table (shift1 zero_price_table))))
           [] [] (fun _ => Fin 1) (fun _ => Fin 0)).
  - reflexivity.
  - reflexivity.
  - intros c _. exists 1. split; [reflexivity | lra].
  - intros c _. exists 0. split; [reflexivity | lra].
Defined.

Lemma zero_total_gives_nan_witness :
  exists res,
    portfolio_beta_weighting market holding_A (Fin 0) (Fin 1) = ret res
    /\ Forall (fun w => w = PInf) (Current_Weight res)
    /\ Forall (fun w => w = NaN) (Adjusted_Weight res)
    /\ Forall (fun n => n = NaN) (New_Shares res).
Proof.
  apply (zero_total_gives_nan market holding_A (Fin 1) inputs_A).
  - exact market_inputs_A.
  - exact positions_A_positive.
Defined.

Lemma historical_data_has_no_nan_witness :
  (exists df,
     (dict_get "Adj Close"
        (market (["A"%string] ++ ["SPY"%string]) (Some ("2020-01-01", "2023-01-01")%string))
      = ret df
      \/ dict_get "Close"
           (market (["A"%string] ++ ["SPY"%string]) (Some ("2020-01-01", "2023-01-01")%string))
         = ret df)
     /\ columns (mkDataFrame ["A"%string; "SPY"%string] market_rows) = columns df
     /\ incl (rows (mkDataFrame ["A"%string; "SPY"%string] market_rows)) (rows df))
  /\ forall r c,
       In r (rows (mkDataFrame ["A"%string; "SPY"%string] market_rows)) ->
       In c (columns (mkDataFrame ["A"%string; "SPY"%string] market_rows)) ->
       np_isnan (r c) = false.
Proof.
  apply (historical_data_has_no_nan market ["A"%string] "2020-01-01" "2023-01-01"
           (mkDataFrame ["A"%string; "SPY"%string] market_rows)).
  reflexivity.
Defined.
